(** * MinIndexedDHeap: an indexed d-ary min-heap, embedded from the TypeScript class

    The class keeps three JavaScript arrays ([values], [heap], [pm]) and two
    numbers ([d], [sz]).  The arrays are read out of range and written through
    keys that can be [undefined], so they are modelled as JavaScript has them:
    reading a missing property gives [undefined], writing an index extends the
    array.  Methods are state transformers that can throw. *)

From Stdlib Require Import ZArith List Lia Bool.
From stdpp Require Import base option gmap list list_numbers.

Open Scope Z_scope.

(** ** JavaScript values *)

(** A property name used to index [values] and [pm]: a number, or the name
    [undefined] (what an out-of-range read of [heap] yields). *)
Inductive jskey : Type :=
  | KUndefined
  | KNum (n : Z).

Definition jskey_to_option (k : jskey) : option Z :=
  match k with KUndefined => None | KNum n => Some n end.

Definition jskey_of_option (o : option Z) : jskey :=
  match o with None => KUndefined | Some n => KNum n end.

#[global] Instance jskey_eq_dec : EqDecision jskey.
Proof. solve_decision. Defined.

#[global] Instance jskey_countable : Countable jskey.
Proof.
  apply (inj_countable' jskey_to_option jskey_of_option).
  intros []; reflexivity.
Defined.

(** What a read of [values] yields: [T | null], or [undefined] for a slot that
    was never written. *)
Inductive jsval (T : Type) : Type :=
  | Undefined
  | Null
  | Val (v : T).

Arguments Undefined {T}.
Arguments Null {T}.
Arguments Val {T} v.

(** The errors the class throws. *)
Inductive error : Type :=
  | VALUE_DOES_NOT_EXIST_ERROR   (* new Error(utils.VALUE_DOES_NOT_EXIST_ERROR) *)
  | PlainError.                  (* new Error() *)

(** How the language itself treats a payload: its truthiness ([!v]) and the
    comparator used when the constructor receives none. *)
Class Payload (T : Type) : Type := {
  truthy : T -> bool;
  defaultCompare : jsval T -> jsval T -> Z
}.

(** Modelled from the spec: [utils.defaultCompare] is imported from a file that
    is not among the sources; the spec calls it the natural ascending order.
    On two numbers it is the sign of their order.  A relational operator with
    an [undefined] operand is false in JavaScript, so neither operand is
    smaller and the result is not negative. *)
Definition number_compare (a b : jsval Z) : Z :=
  match a, b with
  | Val x, Val y => if x <? y then -1 else if y <? x then 1 else 0
  | _, _ => 0
  end.

(** Numbers as payload: [0] is the falsy number. *)
#[global] Instance number_payload : Payload Z := {
  truthy := fun v => negb (v =? 0);
  defaultCompare := number_compare
}.

(** ** JavaScript arrays *)

(** [heap: number[]].  Elements are stored under integer property names; only
    non-negative names count towards [length]. *)
Record jsarray : Type := mkArray {
  elems : gmap Z jskey;
  len : Z
}.

Definition arr_empty : jsarray := mkArray ∅ 0.

(** [a[i]]: a missing element reads as [undefined]. *)
Definition arr_get (a : jsarray) (i : Z) : jskey :=
  match elems a !! i with
  | Some k => k
  | None => KUndefined
  end.

(** [a[i] = x]: writing at or past [length] extends the array. *)
Definition arr_set (a : jsarray) (i : Z) (x : jskey) : jsarray :=
  mkArray (<[i := x]> (elems a))
          (if 0 <=? i then Z.max (len a) (i + 1) else len a).

(** [a.push(x)] *)
Definition arr_push (a : jsarray) (x : jskey) : jsarray :=
  mkArray (<[len a := x]> (elems a)) (len a + 1).

(** [a.pop()]: nothing happens on an empty array. *)
Definition arr_pop (a : jsarray) : jsarray :=
  if len a =? 0 then a
  else mkArray (delete (len a - 1) (elems a)) (len a - 1).

(** ** The class *)

Module MinIndexedDHeap.

Section Class.

Context {T : Type} `{Payload T}.

Record t : Type := mkHeap {
  d : Z;                                  (* the degree of every node *)
  sz : Z;                                 (* size of heap *)
  values : gmap jskey (jsval T);          (* key -> value *)
  heap : jsarray;                         (* position -> key *)
  pm : gmap jskey Z;                      (* key -> position *)
  compare : jsval T -> jsval T -> Z
}.

(** [values[key]] *)
Definition values_get (s : t) (key : jskey) : jsval T :=
  match values s !! key with
  | Some v => v
  | None => Undefined
  end.

(** [!v] *)
Definition falsy (v : jsval T) : bool :=
  match v with
  | Val x => negb (truthy x)
  | _ => true
  end.

(** *** Methods run in a state monad with exceptions.  A throw keeps the state
    as the method left it.  [OutOfFuel] marks a loop that was cut off. *)
Inductive outcome (A : Type) : Type :=
  | Returned (a : A)
  | Thrown (e : error)
  | OutOfFuel.

Arguments Returned {A} a.
Arguments Thrown {A} e.
Arguments OutOfFuel {A}.

Definition M (A : Type) : Type := t -> outcome A * t.

Definition ret {A} (a : A) : M A := fun s => (Returned a, s).

Definition bind {A B} (m : M A) (f : A -> M B) : M B :=
  fun s =>
    match m s with
    | (Returned a, s') => f a s'
    | (Thrown e, s') => (Thrown e, s')
    | (OutOfFuel, s') => (OutOfFuel, s')
    end.

Definition throw {A} (e : error) : M A := fun s => (Thrown e, s).
Definition out_of_fuel {A} : M A := fun s => (OutOfFuel, s).
Definition gets {A} (f : t -> A) : M A := fun s => (Returned (f s), s).
Definition modify (f : t -> t) : M unit := fun s => (Returned tt, f s).

Notation "'let*' x ':=' m 'in' k" := (bind m (fun x => k))
  (at level 10, x name, m at level 100, k at level 200).
Notation "m ';;' k" := (bind m (fun _ => k))
  (at level 100, k at level 200, right associativity).

Definition set_values (f : gmap jskey (jsval T) -> gmap jskey (jsval T)) (s : t) : t :=
  mkHeap (d s) (sz s) (f (values s)) (heap s) (pm s) (compare s).
Definition set_heap (f : jsarray -> jsarray) (s : t) : t :=
  mkHeap (d s) (sz s) (values s) (f (heap s)) (pm s) (compare s).
Definition set_pm (f : gmap jskey Z -> gmap jskey Z) (s : t) : t :=
  mkHeap (d s) (sz s) (values s) (heap s) (f (pm s)) (compare s).
Definition set_sz (f : Z -> Z) (s : t) : t :=
  mkHeap (d s) (f (sz s)) (values s) (heap s) (pm s) (compare s).

(** [constructor(degree, compareFunction?)] *)
Definition create (degree : Z) (compareFunction : option (jsval T -> jsval T -> Z)) : t :=
  mkHeap (Z.max 2 degree) 0 ∅ arr_empty ∅
         (match compareFunction with Some f => f | None => defaultCompare end).

(** *** Niceties *)

Definition size : M Z := gets sz.

Definition isEmpty : M bool :=
  let* n := size in ret (n =? 0).

(** *** Searching *)

(** [this.pm[key] !== undefined && this.pm[key] !== -1] *)
Definition contains_in (s : t) (key : jskey) : bool :=
  match pm s !! key with
  | None => false
  | Some p => negb (p =? -1)
  end.

Definition contains (key : jskey) : M bool := gets (fun s => contains_in s key).

(** [this.pm[key]] where the key has passed [contains]: the entry is a number.
    (The default stands for [undefined] and is never read after that test.) *)
Definition pm_get (s : t) (key : jskey) : Z :=
  match pm s !! key with
  | Some p => p
  | None => -1
  end.

(** *** Helpers *)

(** The loop pushes [parentIndex * d + 1] on each of its [d] rounds: the
    counter [i] does not occur in the pushed expression. *)
Definition getChildrenPositions (s : t) (parentIndex : Z) : list Z :=
  map (fun i : Z => parentIndex * d s + 1) (seqZ 1 (d s)).

(** [Math.floor((childIndex - 1) / this.d)]; for a positive [d] this is the
    floor division of [Z]. *)
Definition getParentPosition (s : t) (childIndex : Z) : Z :=
  (childIndex - 1) / d s.

Definition lessForPositions (positionA positionB : Z) : M bool :=
  let* keyA := gets (fun s => arr_get (heap s) positionA) in
  let* keyB := gets (fun s => arr_get (heap s) positionB) in
  let* valueA := gets (fun s => values_get s keyA) in
  let* valueB := gets (fun s => values_get s keyB) in
  match valueA, valueB with
  | Null, _ | _, Null => throw VALUE_DOES_NOT_EXIST_ERROR
  | _, _ => gets (fun s => compare s valueA valueB <? 0)
  end.

Definition lessForValues (a b : jsval T) : M bool :=
  gets (fun s => compare s a b <? 0).

Definition swap (positionI positionJ : Z) : M unit :=
  let* keyI := gets (fun s => arr_get (heap s) positionI) in
  let* keyJ := gets (fun s => arr_get (heap s) positionJ) in
  modify (set_pm (<[keyI := positionJ]>)) ;;
  modify (set_pm (<[keyJ := positionI]>)) ;;
  modify (set_heap (fun a => arr_set a positionI keyJ)) ;;
  modify (set_heap (fun a => arr_set a positionJ keyI)).

(** The [for ... of childrenPositions] loop of [sink]. *)
Fixpoint sink_children (childrenPositions : list Z) (smallestChildPosition : Z) : M Z :=
  match childrenPositions with
  | [] => ret smallestChildPosition
  | childPosition :: rest =>
      let* n := size in
      let childPositionIsInBounds := smallestChildPosition <? n in
      let* currentChildIsSmallerThanMin :=
        lessForPositions childPosition smallestChildPosition in
      sink_children rest
        (if childPositionIsInBounds && currentChildIsSmallerThanMin
         then childPosition else smallestChildPosition)
  end.

(** The [while (true)] loop of [sink].  [childrenPositions[0]] exists because
    [d] is at least 2 in every constructed heap; the default of [hd] stands
    for the [undefined] of an empty list. *)
Fixpoint sink_loop (fuel : nat) (k : Z) : M unit :=
  match fuel with
  | O => out_of_fuel
  | S fuel' =>
      let* childrenPositions := gets (fun s => getChildrenPositions s k) in
      let smallest0 := hd 0 childrenPositions in
      let* smallestChildPosition := sink_children childrenPositions smallest0 in
      let* n := size in
      let childrenPositionsIsOutOfBounds := n <=? smallestChildPosition in
      let* elementIsLessThanChild := lessForPositions k smallestChildPosition in
      if childrenPositionsIsOutOfBounds || elementIsLessThanChild then ret tt
      else swap k smallestChildPosition ;; sink_loop fuel' smallestChildPosition
  end.

(** Each round moves [k] to a strictly larger position below [sz], so
    [sz + 1] rounds are enough from a non-negative [k] (see [sink_rule] and
    [sink_loop_more_fuel]). *)
Definition sink (k : Z) : M unit :=
  fun s => sink_loop (S (Z.to_nat (sz s))) k s.

(** The [while (k > 0 && lessForPositions(k, parent))] loop of [swim]. *)
Fixpoint swim_loop (fuel : nat) (k parentPostion : Z) : M unit :=
  match fuel with
  | O => out_of_fuel
  | S fuel' =>
      let* go := (if 0 <? k then lessForPositions k parentPostion else ret false) in
      if go then
        swap k parentPostion ;;
        let* next := gets (fun s => getParentPosition s parentPostion) in
        swim_loop fuel' parentPostion next
      else ret tt
  end.

(** Each round moves [k] to a strictly smaller position, so [k + 1] rounds
    are enough (see [swim_rule] and [swim_loop_more_fuel]). *)
Definition swim (k : Z) : M unit :=
  let* parentPostion := gets (fun s => getParentPosition s k) in
  swim_loop (S (Z.to_nat k)) k parentPostion.

(** *** Insertion *)

Definition add (key : jskey) (value : T) : M bool :=
  let* present := contains key in
  if present then ret false
  else
    modify (set_values (<[key := Val value]>)) ;;
    modify (set_heap (fun a => arr_push a key)) ;;
    modify (set_sz (fun n => n + 1)) ;;
    let* n := size in
    let keyPosition := n - 1 in
    modify (set_pm (<[key := keyPosition]>)) ;;
    swim keyPosition ;;
    ret true.

(** *** Accessing *)

Definition peek : M (jsval T) :=
  let* empty := isEmpty in
  if empty then ret Null
  else
    let* key := gets (fun s => arr_get (heap s) 0) in
    gets (fun s => values_get s key).

Definition valueOf (key : jskey) : M (jsval T) :=
  let* present := contains key in
  if negb present then ret Null
  else gets (fun s => values_get s key).

(** *** Updating *)

Definition updateKey (key : jskey) (value : T) : M bool :=
  let* present := contains key in
  if negb present then ret false
  else
    let* old := gets (fun s => values_get s key) in
    if falsy old then ret false
    else
      modify (set_values (<[key := Val value]>)) ;;
      let* position := gets (fun s => pm_get s key) in
      sink position ;;
      swim position ;;
      ret true.

Definition decreaseKey (key : jskey) (newValue : T) : M bool :=
  let* present := contains key in
  if negb present then ret false
  else
    let* oldValue := gets (fun s => values_get s key) in
    if falsy oldValue then ret false
    else
      modify (set_values (<[key := Val newValue]>)) ;;
      let* smaller := lessForValues (Val newValue) oldValue in
      (if smaller then modify (set_values (<[key := Val newValue]>)) else ret tt) ;;
      let* position := gets (fun s => pm_get s key) in
      sink position ;;
      swim position ;;
      ret true.

Definition increaseKey (key : jskey) (newValue : T) : M bool :=
  let* present := contains key in
  if negb present then ret false
  else
    let* oldValue := gets (fun s => values_get s key) in
    if falsy oldValue then ret false
    else
      modify (set_values (<[key := Val newValue]>)) ;;
      let* larger := lessForValues oldValue (Val newValue) in
      (if larger then modify (set_values (<[key := Val newValue]>)) else ret tt) ;;
      let* position := gets (fun s => pm_get s key) in
      sink position ;;
      swim position ;;
      ret true.

(** *** Deletion *)

Definition deleteKey (key : jskey) : M (jsval T) :=
  let* present := contains key in
  if negb present then ret Null
  else
    let* value := gets (fun s => values_get s key) in
    match value with
    | Null => throw PlainError
    | _ =>
        modify (set_values (<[key := Null]>)) ;;
        let* removedNodePosition := gets (fun s => pm_get s key) in
        let* n := size in
        let lastNodePosition := n - 1 in
        swap removedNodePosition lastNodePosition ;;
        modify (set_heap arr_pop) ;;
        modify (set_sz (fun n => n - 1)) ;;
        sink removedNodePosition ;;
        swim removedNodePosition ;;
        modify (set_pm (<[key := -1]>)) ;;
        ret value
    end.

Definition poll : M (jsval T) :=
  let* empty := isEmpty in
  if empty then ret Null
  else
    let* keyToBeRemoved := gets (fun s => arr_get (heap s) 0) in
    let* value := gets (fun s => values_get s keyToBeRemoved) in
    deleteKey keyToBeRemoved.

(** ** Well-formed states *)

(** [values[heap[p]]]: the value a position resolves to. *)
Definition value_at (s : t) (p : Z) : jsval T :=
  values_get s (arr_get (heap s) p).

(** Position [p] holds a numeric key whose index entry points back at [p] and
    whose value slot is live. *)
Definition slot_ok (s : t) (p : Z) : Prop :=
  exists k v,
    elems (heap s) !! p = Some (KNum k) /\
    pm s !! KNum k = Some p /\
    values s !! KNum k = Some (Val v).

(** The heap array and what it points at. *)
Record heap_ok (s : t) : Prop := mkHeapOk {
  ok_degree : 2 <= d s;
  ok_size : 0 <= sz s;
  ok_len : len (heap s) = sz s;
  ok_slots : forall p, 0 <= p < sz s -> slot_ok s p;
  ok_outside : forall p, ~ (0 <= p < sz s) -> elems (heap s) !! p = None;
  ok_undefined : values s !! KUndefined = None;
  ok_compare : forall x, 0 <= compare s Undefined x
}.

(** Every contained key, except a key [stale] that is being deleted, sits at
    the position its index entry names. *)
Definition index_ok (stale : option jskey) (s : t) : Prop :=
  forall k p, Some k <> stale -> pm s !! k = Some p -> p <> -1 ->
    0 <= p < sz s /\ arr_get (heap s) p = k.

(** The key being deleted is no longer in the heap array. *)
Definition stale_ok (stale : option jskey) (s : t) : Prop :=
  forall k p, stale = Some k -> 0 <= p < sz s -> arr_get (heap s) p <> k.

Definition wf (stale : option jskey) (s : t) : Prop :=
  heap_ok s /\ index_ok stale s /\ stale_ok stale s.

(** The invariant of the class between two public calls. *)
Definition Inv (s : t) : Prop := wf None s.

(** What [sink] and [swim] leave alone. *)
Definition same_store (s s' : t) : Prop :=
  d s' = d s /\ sz s' = sz s /\ values s' = values s /\ compare s' = compare s.

(** The state after [swap(positionI, positionJ)]. *)
Definition swap_state (positionI positionJ : Z) (s : t) : t :=
  let keyI := arr_get (heap s) positionI in
  let keyJ := arr_get (heap s) positionJ in
  set_heap (fun a => arr_set a positionJ keyI)
    (set_heap (fun a => arr_set a positionI keyJ)
      (set_pm (<[keyJ := positionI]>)
        (set_pm (<[keyI := positionJ]>) s))).

(** The same keys are contained. *)
Definition same_keys (s s' : t) : Prop :=
  forall key, contains_in s' key = contains_in s key.

(** What [sink] and [swim] establish from a state [s0]. *)
Definition restored (stale : option jskey) (s0 s' : t) : Prop :=
  wf stale s' /\ same_store s0 s' /\ same_keys s0 s'.

(** The state [add] hands to [swim]. *)
Definition add_state (key : jskey) (value : T) (s : t) : t :=
  set_pm (<[key := sz s + 1 - 1]>)
    (set_sz (fun n => n + 1)
      (set_heap (fun a => arr_push a key)
        (set_values (<[key := Val value]>) s))).

(** The state [deleteKey] hands to [sink]. *)
Definition delete_state (key : jskey) (s : t) : t :=
  set_sz (fun n => n - 1)
    (set_heap arr_pop
      (swap_state (pm_get s key) (sz s - 1)
        (set_values (<[key := Null]>) s))).

(** ** Sequences of public calls *)

(** A call of one of the mutating methods, with a numeric key as the
    signatures require. *)
Inductive call : Type :=
  | Add (key : Z) (value : T)
  | UpdateKey (key : Z) (value : T)
  | DecreaseKey (key : Z) (newValue : T)
  | IncreaseKey (key : Z) (newValue : T)
  | DeleteKey (key : Z)
  | Poll.

Inductive result : Type :=
  | RBool (b : bool)
  | RValue (v : jsval T).

Definition run_call (c : call) : M result :=
  match c with
  | Add key value => let* b := add (KNum key) value in ret (RBool b)
  | UpdateKey key value => let* b := updateKey (KNum key) value in ret (RBool b)
  | DecreaseKey key value => let* b := decreaseKey (KNum key) value in ret (RBool b)
  | IncreaseKey key value => let* b := increaseKey (KNum key) value in ret (RBool b)
  | DeleteKey key => let* v := deleteKey (KNum key) in ret (RValue v)
  | Poll => let* v := poll in ret (RValue v)
  end.

Fixpoint run_calls (cs : list call) : M (list result) :=
  match cs with
  | [] => ret []
  | c :: rest =>
      let* r := run_call c in
      let* rs := run_calls rest in
      ret (r :: rs)
  end.

(** The root key before each of [n] successive [poll()] calls, with what the
    call returned. *)
Fixpoint polls (n : nat) (s : t) : list (jskey * outcome (jsval T)) :=
  match n with
  | O => []
  | S n' =>
      let key := arr_get (heap s) 0 in
      let '(r, s') := poll s in
      (key, r) :: polls n' s'
  end.

(** The state a sequence of calls leaves. *)
Definition after (cs : list call) (s : t) : t := snd (run_calls cs s).

(** The two halves of the heap invariant: the index points back at every
    position, and no parent compares greater than any of its [d] children
    at positions [p*d + 1 .. p*d + d]. *)
Definition index_invariant (s : t) : Prop :=
  forall p, 0 <= p < sz s -> pm s !! arr_get (heap s) p = Some p.

Definition order_invariant (s : t) : Prop :=
  forall p c, 0 <= p < sz s -> p * d s + 1 <= c <= p * d s + d s -> c < sz s ->
    compare s (value_at s p) (value_at s c) <= 0.

Definition heap_invariant (s : t) : Prop :=
  index_invariant s /\ order_invariant s.

(** ** The rest of the class, and what its states are measured by *)

(** An array index of JavaScript: an integer from 0 up to [2^32 - 2].  Other
    property names of an array (negative numbers, [undefined]) are ordinary
    properties, which [length] does not count and does not delete. *)
Definition is_array_index (n : Z) : bool := (0 <=? n) && (n <? 2 ^ 32 - 1).

Definition key_is_index (key : jskey) : bool :=
  match key with
  | KNum n => is_array_index n
  | KUndefined => false
  end.

(** [a.length = 0]: every element under an array index is deleted. *)
Definition arr_clear (a : jsarray) : jsarray :=
  mkArray (filter (fun kv => is_array_index kv.1 = false) (elems a)) 0.

(** [clear()] *)
Definition clear : M unit :=
  modify (set_values (filter (fun kv => key_is_index kv.1 = false))) ;;
  modify (set_pm (filter (fun kv => key_is_index kv.1 = false))) ;;
  modify (set_heap arr_clear) ;;
  modify (set_sz (fun _ => 0)).

(** The keys for which [contains] answers true. *)
Definition contained_keys (s : t) : gset jskey :=
  dom (filter (fun kp => kp.2 <> -1) (pm s)).

(** A comparator that orders the payloads: [compare a b <= 0] is transitive
    and holds one way or the other. *)
Record comparator_ok (cmp : jsval T -> jsval T -> Z) : Prop := mkComparatorOk {
  cmp_trans : forall a b c,
    cmp (Val a) (Val b) <= 0 -> cmp (Val b) (Val c) <= 0 -> cmp (Val a) (Val c) <= 0;
  cmp_total : forall a b, 0 <= cmp (Val a) (Val b) -> cmp (Val b) (Val a) <= 0
}.

(** The heap order read through [getParentPosition]: no position compares
    smaller than its parent. *)
Definition parent_order (s : t) : Prop :=
  forall c, 0 < c < sz s ->
    compare s (value_at s (getParentPosition s c)) (value_at s c) <= 0.

(** The heap order while [swim] holds the element at position [k]: it may be
    smaller than its parent, and its children are no smaller than its
    parent. *)
Definition swim_order (s : t) (k : Z) : Prop :=
  (forall c, 0 < c < sz s -> c <> k ->
     compare s (value_at s (getParentPosition s c)) (value_at s c) <= 0) /\
  (forall c, 0 < c < sz s -> getParentPosition s c = k -> 0 < k ->
     compare s (value_at s (getParentPosition s k)) (value_at s c) <= 0).

(** The calls that add the given keys with the given values, in order. *)
Definition adds (kvs : list (Z * T)) : list call :=
  map (fun kv => Add kv.1 kv.2) kvs.

(** The state after [n] successive [poll()] calls. *)
Fixpoint after_polls (n : nat) (s : t) : t :=
  match n with
  | O => s
  | S n' => after_polls n' (snd (poll s))
  end.

End Class.

Arguments t T : clear implicits.
Arguments M T : clear implicits.
Arguments outcome A : clear implicits.
Arguments Returned {A} a.
Arguments Thrown {A} e.
Arguments OutOfFuel {A}.
Arguments call T : clear implicits.
Arguments cmp_trans {T cmp}.
Arguments cmp_total {T cmp}.
Arguments result T : clear implicits.

(** ** Heaps of numbers under the default comparator *)

Definition fresh (degree : Z) : t Z := create degree None.

(** Keys 0..3 with values 1, 3, 2, 4, then one [poll()]. *)
Definition order_calls : list (call Z) :=
  [Add 0 1; Add 1 3; Add 2 2; Add 3 4; Poll].

(** Keys 0..4 with values 5, 3, 8, 1, 9. *)
Definition extraction_calls : list (call Z) :=
  [Add 0 5; Add 1 3; Add 2 8; Add 3 1; Add 4 9].

(** ** Basic facts *)

Section Facts.

Context {T : Type} `{Payload T}.

Implicit Types (s : t T) (key : jskey).

Notation "m ';;' k" := (bind m (fun _ => k))
  (at level 100, k at level 200, right associativity).

Lemma swap_run i j s : swap i j s = (Returned tt, swap_state i j s).
Proof. reflexivity. Qed.

Lemma value_at_inside s p :
  heap_ok s -> 0 <= p < sz s -> exists v, value_at s p = Val v.
Proof.
  intros Hok Hp. destruct (ok_slots s Hok p Hp) as (k & v & Hh & _ & Hv).
  exists v. unfold value_at, arr_get, values_get. rewrite Hh. simpl. now rewrite Hv.
Qed.

Lemma value_at_outside s p :
  heap_ok s -> ~ (0 <= p < sz s) -> value_at s p = Undefined.
Proof.
  intros Hok Hp. unfold value_at, arr_get, values_get.
  rewrite (ok_outside s Hok p Hp). simpl. now rewrite (ok_undefined s Hok).
Qed.

Lemma value_at_not_null s p : heap_ok s -> value_at s p <> Null.
Proof.
  intros Hok. destruct (decide (0 <= p < sz s)) as [Hp|Hp].
  - destruct (value_at_inside s p Hok Hp) as [v ->]. discriminate.
  - rewrite (value_at_outside s p Hok Hp). discriminate.
Qed.

(** [lessForPositions] as a function of the two resolved values. *)
Lemma lessForPositions_run a b s :
  lessForPositions a b s =
    match value_at s a, value_at s b with
    | Null, _ | _, Null => (Thrown VALUE_DOES_NOT_EXIST_ERROR, s)
    | x, y => (Returned (compare s x y <? 0), s)
    end.
Proof.
  unfold lessForPositions, bind, gets, throw, value_at. simpl.
  destruct (values_get s (arr_get (heap s) a)), (values_get s (arr_get (heap s) b));
    reflexivity.
Qed.

(** On a well-formed heap no comparison throws. *)
Lemma lessForPositions_ok a b s :
  heap_ok s ->
  lessForPositions a b s = (Returned (compare s (value_at s a) (value_at s b) <? 0), s).
Proof.
  intros Hok. rewrite lessForPositions_run.
  pose proof (value_at_not_null s a Hok). pose proof (value_at_not_null s b Hok).
  destruct (value_at s a), (value_at s b); congruence.
Qed.

(** ** [swap] on a well-formed heap *)

Lemma arr_get_slot s p k :
  elems (heap s) !! p = Some k -> arr_get (heap s) p = k.
Proof. unfold arr_get. now intros ->. Qed.

Lemma slot_key_inj s p q k :
  heap_ok s -> 0 <= p < sz s -> 0 <= q < sz s ->
  arr_get (heap s) p = k -> arr_get (heap s) q = k -> p = q.
Proof.
  intros Hok Hp Hq Ha Hb.
  destruct (ok_slots s Hok p Hp) as (kp & vp & Hhp & Hpp & _).
  destruct (ok_slots s Hok q Hq) as (kq & vq & Hhq & Hpq & _).
  rewrite (arr_get_slot _ _ _ Hhp) in Ha. rewrite (arr_get_slot _ _ _ Hhq) in Hb.
  subst k. inversion Hb; subst. congruence.
Qed.

(** Swapping two occupied positions keeps the heap well formed. *)
Lemma swap_state_wf stale s i j :
  wf stale s -> 0 <= i < sz s -> 0 <= j < sz s -> wf stale (swap_state i j s).
Proof.
  intros (Hok & Hidx & Hst) Hi Hj.
  destruct (ok_slots s Hok i Hi) as (ki & vi & Hhi & Hpi & Hvi).
  destruct (ok_slots s Hok j Hj) as (kj & vj & Hhj & Hpj & Hvj).
  assert (Hij : ki = kj <-> i = j).
  { split; intros; subst; congruence. }
  unfold swap_state. rewrite (arr_get_slot _ _ _ Hhi), (arr_get_slot _ _ _ Hhj).
  assert (Hget : forall p,
    arr_get (arr_set (arr_set (heap s) i (KNum kj)) j (KNum ki)) p =
      if decide (p = j) then KNum ki
      else if decide (p = i) then KNum kj else arr_get (heap s) p).
  { intros p. unfold arr_get, arr_set. simpl.
    destruct (decide (p = j)) as [->|Hpj']; [now rewrite lookup_insert_eq|].
    rewrite lookup_insert_ne by congruence.
    destruct (decide (p = i)) as [->|Hpi']; [now rewrite lookup_insert_eq|].
    now rewrite lookup_insert_ne by congruence. }
  split; [|split].
  - destruct Hok as [Hd Hsz Hlen Hslots Hout Hund Hcmp].
    constructor; simpl; try assumption.
    + destruct (0 <=? i) eqn:Ei; destruct (0 <=? j) eqn:Ej; lia.
    + intros p Hp. unfold slot_ok. simpl.
      destruct (decide (p = j)) as [->|Hpj'].
      { exists ki, vi. rewrite lookup_insert_eq. split; [done|]. split; [|done].
        destruct (decide (ki = kj)) as [->|Hne].
        - rewrite lookup_insert_eq. congruence.
        - rewrite lookup_insert_ne by congruence. now rewrite lookup_insert_eq. }
      destruct (decide (p = i)) as [->|Hpi'].
      { exists kj, vj. rewrite lookup_insert_ne by congruence.
        rewrite !lookup_insert_eq. done. }
      destruct (Hslots p Hp) as (k & v & Hh & Hpp & Hv).
      assert (KNum kj <> KNum k) by (intros [= ->]; congruence).
      assert (KNum ki <> KNum k) by (intros [= ->]; congruence).
      exists k, v. now rewrite !lookup_insert_ne by congruence.
    + intros p Hp. rewrite !lookup_insert_ne by lia. now apply Hout.
  - intros k p Hk Hp Hm1. simpl in Hp |- *. rewrite Hget.
    destruct (decide (KNum kj = k)) as [<-|Hkj].
    { rewrite lookup_insert_eq in Hp. injection Hp as <-. split; [lia|].
      destruct (decide (i = j)) as [Heq|Hne]; [|now rewrite decide_True by done].
      f_equal. now apply Hij. }
    rewrite lookup_insert_ne in Hp by done.
    destruct (decide (KNum ki = k)) as [<-|Hki].
    { rewrite lookup_insert_eq in Hp. injection Hp as <-. split; [lia|].
      now rewrite decide_True by done. }
    rewrite lookup_insert_ne in Hp by done.
    destruct (Hidx k p Hk Hp Hm1) as [Hb Hg]. split; [done|].
    destruct (decide (p = j)) as [->|_].
    { exfalso. apply Hkj. rewrite <- Hg. symmetry. now apply arr_get_slot. }
    destruct (decide (p = i)) as [->|_]; [|done].
    exfalso. apply Hki. rewrite <- Hg. symmetry. now apply arr_get_slot.
  - intros k p -> Hp. simpl in Hp |- *. rewrite Hget.
    destruct (decide (p = j)) as [->|_].
    { rewrite <- (arr_get_slot _ _ _ Hhi). now apply (Hst k i). }
    destruct (decide (p = i)) as [->|_].
    { rewrite <- (arr_get_slot _ _ _ Hhj). now apply (Hst k j). }
    now apply (Hst k p).
Qed.

Lemma swap_state_same_store i j s : same_store s (swap_state i j s).
Proof. now unfold same_store, swap_state. Qed.

(** ** The loops of [sink] and [swim] *)

(** All entries of the children list are the same position. *)
Lemma getChildrenPositions_all s p :
  Forall (fun c => c = p * d s + 1) (getChildrenPositions s p).
Proof.
  unfold getChildrenPositions.
  induction (seqZ 1 (d s)) as [|i l IH]; simpl; constructor; auto.
Qed.

Lemma getChildrenPositions_hd s p :
  1 <= d s -> hd 0 (getChildrenPositions s p) = p * d s + 1.
Proof.
  intros Hd. unfold getChildrenPositions. now rewrite seqZ_cons by lia.
Qed.

Lemma getParentPosition_bounds s k :
  2 <= d s -> 0 < k -> 0 <= getParentPosition s k < k.
Proof.
  intros Hd Hk. unfold getParentPosition. split.
  - apply Z.div_pos; lia.
  - apply Z.div_lt_upper_bound; nia.
Qed.

(** The scan over the children never moves off its starting position. *)
Lemma sink_children_run s cs x :
  heap_ok s -> Forall (fun c => c = x) cs ->
  sink_children cs x s = (Returned x, s).
Proof.
  intros Hok. induction 1 as [|c cs -> _ IH]; [reflexivity|].
  simpl. unfold bind, size, gets. rewrite lessForPositions_ok by done.
  now destruct (_ && _).
Qed.

(** One round of [sink] on a well-formed heap. *)
Lemma sink_loop_step fuel k s :
  heap_ok s ->
  sink_loop (S fuel) k s =
    if (sz s <=? k * d s + 1)
       || (compare s (value_at s k) (value_at s (k * d s + 1)) <? 0)
    then (Returned tt, s)
    else sink_loop fuel (k * d s + 1) (swap_state k (k * d s + 1) s).
Proof.
  intros Hok. simpl. unfold bind at 1. unfold gets at 1.
  rewrite getChildrenPositions_hd by (pose proof (ok_degree s Hok); lia).
  unfold bind at 1.
  rewrite (sink_children_run s _ _ Hok (getChildrenPositions_all s k)).
  unfold bind at 1. unfold size, gets at 1.
  unfold bind at 1. rewrite lessForPositions_ok by done.
  destruct (_ || _); [reflexivity|].
  unfold bind. now rewrite swap_run.
Qed.

(** Invariant rule for [sink]: a property of well-formed heaps that every
    swap of two occupied positions keeps, holds when the loop returns, and
    the loop does return within [sz - k + 1] rounds. *)
Lemma sink_loop_rule (P : t T -> Prop) :
  (forall s, P s -> heap_ok s) ->
  (forall s i j, P s -> 0 <= i < sz s -> 0 <= j < sz s -> P (swap_state i j s)) ->
  forall fuel k s,
    P s -> 0 <= k -> (Z.to_nat (sz s - k) < fuel)%nat ->
    exists s', sink_loop fuel k s = (Returned tt, s') /\ P s'.
Proof.
  intros HP Hswap. induction fuel as [|fuel IH]; intros k s Hs Hk Hfuel; [lia|].
  pose proof (HP s Hs) as Hok. pose proof (ok_degree s Hok) as Hd.
  rewrite sink_loop_step by done.
  destruct (sz s <=? k * d s + 1) eqn:Eb; [now exists s|].
  simpl. destruct (_ <? 0); [now exists s|].
  apply Z.leb_gt in Eb.
  apply IH.
  - apply Hswap; [done| |]; nia.
  - nia.
  - change (sz (swap_state k (k * d s + 1) s)) with (sz s).
    assert (k + 1 <= k * d s + 1) by nia. lia.
Qed.

(** One round of [swim] on a well-formed heap. *)
Lemma swim_loop_step fuel k p s :
  heap_ok s ->
  swim_loop (S fuel) k p s =
    if (0 <? k) && (compare s (value_at s k) (value_at s p) <? 0)
    then swim_loop fuel p (getParentPosition s p) (swap_state k p s)
    else (Returned tt, s).
Proof.
  intros Hok. simpl. unfold bind at 1.
  destruct (0 <? k); simpl.
  - rewrite lessForPositions_ok by done.
    destruct (_ <? 0); [|reflexivity].
    unfold bind at 1. rewrite swap_run. reflexivity.
  - reflexivity.
Qed.

(** Invariant rule for [swim], from any position up to and including the
    first free one. *)
Lemma swim_loop_rule (P : t T -> Prop) :
  (forall s, P s -> heap_ok s) ->
  (forall s i j, P s -> 0 <= i < sz s -> 0 <= j < sz s -> P (swap_state i j s)) ->
  forall fuel k s,
    P s -> 0 <= k <= sz s -> (Z.to_nat k < fuel)%nat ->
    exists s', swim_loop fuel k (getParentPosition s k) s = (Returned tt, s') /\ P s'.
Proof.
  intros HP Hswap. induction fuel as [|fuel IH]; intros k s Hs Hk Hfuel; [lia|].
  pose proof (HP s Hs) as Hok. pose proof (ok_degree s Hok) as Hd.
  rewrite swim_loop_step by done.
  destruct (0 <? k) eqn:Ek; [|now exists s]. apply Z.ltb_lt in Ek. simpl.
  destruct (_ <? 0) eqn:Ec; [|now exists s].
  pose proof (getParentPosition_bounds s k Hd Ek) as Hpar.
  assert (k < sz s) as Hlt.
  { destruct (decide (k < sz s)) as [|Hge]; [done|]. exfalso.
    rewrite (value_at_outside s k Hok) in Ec by lia.
    apply Z.ltb_lt in Ec. pose proof (ok_compare s Hok (value_at s (getParentPosition s k))). lia. }
  change (getParentPosition s (getParentPosition s k))
    with (getParentPosition (swap_state k (getParentPosition s k) s) (getParentPosition s k)).
  apply IH.
  - apply Hswap; [done| |]; lia.
  - change (sz (swap_state k (getParentPosition s k) s)) with (sz s). lia.
  - lia.
Qed.

Lemma sink_rule (P : t T -> Prop) :
  (forall s, P s -> heap_ok s) ->
  (forall s i j, P s -> 0 <= i < sz s -> 0 <= j < sz s -> P (swap_state i j s)) ->
  forall k s, P s -> 0 <= k ->
    exists s', sink k s = (Returned tt, s') /\ P s'.
Proof.
  intros HP Hswap k s Hs Hk. unfold sink.
  apply (sink_loop_rule P HP Hswap); [done..|].
  pose proof (ok_size s (HP s Hs)). lia.
Qed.

Lemma swim_rule (P : t T -> Prop) :
  (forall s, P s -> heap_ok s) ->
  (forall s i j, P s -> 0 <= i < sz s -> 0 <= j < sz s -> P (swap_state i j s)) ->
  forall k s, P s -> 0 <= k <= sz s ->
    exists s', swim k s = (Returned tt, s') /\ P s'.
Proof.
  intros HP Hswap k s Hs Hk. unfold swim, bind, gets.
  apply (swim_loop_rule P HP Hswap); [done..|lia].
Qed.

(** ** The public methods on a well-formed heap *)

Lemma contains_in_true s key :
  contains_in s key = true <-> exists p, pm s !! key = Some p /\ p <> -1.
Proof.
  unfold contains_in. destruct (pm s !! key) as [p|]; split.
  - intros Hc. exists p. split; [done|]. destruct (Z.eqb_spec p (-1)); simpl in Hc; congruence.
  - intros (q & [= <-] & Hq). now destruct (Z.eqb_spec p (-1)).
  - discriminate.
  - now intros (q & ? & _).
Qed.

(** A contained key of a well-formed heap is a number that sits at its
    indexed position with a live value. *)
Lemma contained_slot s key :
  Inv s -> contains_in s key = true ->
  exists n v, key = KNum n /\ 0 <= pm_get s key < sz s /\
    pm s !! key = Some (pm_get s key) /\
    arr_get (heap s) (pm_get s key) = key /\
    values s !! key = Some (Val v).
Proof.
  intros (Hok & Hidx & _) Hc. apply contains_in_true in Hc as (p & Hp & Hm1).
  destruct (Hidx key p) as [Hb Hg]; [done..|].
  destruct (ok_slots s Hok p Hb) as (n & v & Hh & Hpm & Hv).
  rewrite (arr_get_slot _ _ _ Hh) in Hg. subst key.
  exists n, v. unfold pm_get. rewrite Hp. repeat split; try done; try lia.
  now apply arr_get_slot.
Qed.

Lemma slot_contained s p :
  heap_ok s -> 0 <= p < sz s -> contains_in s (arr_get (heap s) p) = true.
Proof.
  intros Hok Hp. destruct (ok_slots s Hok p Hp) as (k & v & Hh & Hpm & _).
  rewrite (arr_get_slot _ _ _ Hh). apply contains_in_true. exists p. split; [done|lia].
Qed.

Lemma swap_state_same_keys s i j :
  heap_ok s -> 0 <= i < sz s -> 0 <= j < sz s -> same_keys s (swap_state i j s).
Proof.
  intros Hok Hi Hj key.
  pose proof (slot_contained s i Hok Hi) as Hci.
  pose proof (slot_contained s j Hok Hj) as Hcj.
  unfold swap_state, contains_in in *. simpl.
  destruct (decide (arr_get (heap s) j = key)) as [<-|Hnj].
  { rewrite lookup_insert_eq. destruct (pm s !! arr_get (heap s) j); [|done].
    rewrite Hcj. destruct (Z.eqb_spec i (-1)); [lia|done]. }
  rewrite lookup_insert_ne by done.
  destruct (decide (arr_get (heap s) i = key)) as [<-|Hni].
  { rewrite lookup_insert_eq. destruct (pm s !! arr_get (heap s) i); [|done].
    rewrite Hci. destruct (Z.eqb_spec j (-1)); [lia|done]. }
  now rewrite lookup_insert_ne by done.
Qed.

Lemma restored_refl stale s : wf stale s -> restored stale s s.
Proof. intros Hwf. split; [done|]. split; [now unfold same_store|]. now intros key. Qed.

Lemma restored_heap_ok stale s0 s : restored stale s0 s -> heap_ok s.
Proof. now intros ((Hok & _) & _). Qed.

Lemma restored_swap stale s0 s i j :
  restored stale s0 s -> 0 <= i < sz s -> 0 <= j < sz s ->
  restored stale s0 (swap_state i j s).
Proof.
  intros (Hwf & Hst & Hk) Hi Hj. split; [now apply swap_state_wf|]. split.
  - destruct Hst as (? & ? & ? & ?). now unfold same_store, swap_state.
  - intros key. rewrite <- Hk. apply swap_state_same_keys; [apply Hwf|done..].
Qed.

(** [sink] and [swim] return, and restore well-formedness, from every
    position the methods call them at. *)
Lemma sink_restored stale s k :
  wf stale s -> 0 <= k -> exists s', sink k s = (Returned tt, s') /\ restored stale s s'.
Proof.
  intros Hwf Hk.
  apply (sink_rule (restored stale s) (restored_heap_ok stale s) (restored_swap stale s));
    [now apply restored_refl|done].
Qed.

Lemma swim_restored stale s k :
  wf stale s -> 0 <= k <= sz s ->
  exists s', swim k s = (Returned tt, s') /\ restored stale s s'.
Proof.
  intros Hwf Hk.
  apply (swim_rule (restored stale s) (restored_heap_ok stale s) (restored_swap stale s));
    [now apply restored_refl|done].
Qed.

Lemma restored_trans stale s0 s1 s2 :
  restored stale s0 s1 -> restored stale s1 s2 -> restored stale s0 s2.
Proof.
  intros (_ & (A1 & A2 & A3 & A4) & Hk1) (Hwf & (B1 & B2 & B3 & B4) & Hk2).
  split; [done|]. split.
  - unfold same_store. repeat split; congruence.
  - intros key. now rewrite Hk2.
Qed.

(** [sink] then [swim] at one position, as [updateKey] and [deleteKey] run
    them. *)
Lemma sink_swim_restored stale s k :
  wf stale s -> 0 <= k <= sz s ->
  exists s', (sink k ;; swim k) s = (Returned tt, s') /\ restored stale s s'.
Proof.
  intros Hwf Hk.
  destruct (sink_restored stale s k Hwf) as (s1 & Hsink & Hr1); [lia|].
  assert (sz s1 = sz s) as Hsz by apply Hr1.
  destruct (swim_restored stale s1 k) as (s2 & Hswim & Hr2); [apply Hr1|lia|].
  exists s2. split; [|now apply (restored_trans stale s s1 s2)].
  unfold bind. now rewrite Hsink.
Qed.

(** *** add *)

Lemma add_run key v s :
  contains_in s key = false ->
  add key v s = (swim (sz s + 1 - 1) ;; ret true) (add_state key v s).
Proof.
  intros Hc. unfold add, bind at 1, contains, gets at 1. now rewrite Hc.
Qed.

Lemma add_state_wf n v s :
  Inv s -> contains_in s (KNum n) = false -> Inv (add_state (KNum n) v s).
Proof.
  intros (Hok & Hidx & _) Hc.
  assert (Hfresh : forall p k, 0 <= p < sz s ->
            elems (heap s) !! p = Some (KNum k) -> KNum n <> KNum k).
  { intros p k Hp Hh [= ->]. pose proof (slot_contained s p Hok Hp) as Hc'.
    rewrite (arr_get_slot _ _ _ Hh) in Hc'. congruence. }
  destruct Hok as [Hd Hsz Hlen Hslots Hout Hund Hcmp].
  split; [|split].
  - constructor; simpl; try assumption; try lia.
    + intros p Hp. unfold slot_ok. simpl. rewrite Hlen.
      destruct (decide (p = sz s)) as [->|Hne].
      * exists n, v. rewrite !lookup_insert_eq. repeat split. f_equal. lia.
      * destruct (Hslots p) as (k & v' & Hh & Hpm & Hv); [lia|].
        exists k, v'. pose proof (Hfresh p k ltac:(lia) Hh).
        now rewrite !lookup_insert_ne by congruence.
    + intros p Hp. rewrite Hlen. rewrite lookup_insert_ne by lia. apply Hout. lia.
    + now rewrite lookup_insert_ne.
  - intros k p _ Hp Hm1. simpl in Hp |- *. unfold arr_get, arr_push. simpl. rewrite Hlen.
    destruct (decide (KNum n = k)) as [<-|Hne].
    + rewrite lookup_insert_eq in Hp. injection Hp as <-. split; [lia|].
      replace (sz s + 1 - 1) with (sz s) by lia. now rewrite lookup_insert_eq.
    + rewrite lookup_insert_ne in Hp by done.
      destruct (Hidx k p) as [Hb Hg]; [done..|]. split; [lia|].
      rewrite lookup_insert_ne by lia. exact Hg.
  - intros k p [=].
Qed.

(** [add] of a key that is not contained returns true on a well-formed heap,
    which stays well formed, with the key contained and its value recorded. *)
Lemma add_fresh n v s :
  Inv s -> contains_in s (KNum n) = false ->
  exists s', add (KNum n) v s = (Returned true, s') /\ Inv s' /\
    sz s' = sz s + 1 /\
    values s' = <[KNum n := Val v]> (values s) /\
    contains_in s' (KNum n) = true /\
    (forall key, key <> KNum n -> contains_in s' key = contains_in s key).
Proof.
  intros HI Hc. rewrite add_run by done.
  pose proof (add_state_wf n v s HI Hc) as HI1.
  destruct (swim_restored None (add_state (KNum n) v s) (sz s + 1 - 1) HI1)
    as (s' & Hswim & Hwf & (_ & Hsz & Hval & _) & Hkeys).
  { simpl. destruct HI as (Hok & _). pose proof (ok_size s Hok). lia. }
  exists s'. unfold bind. rewrite Hswim. split; [done|]. split; [done|].
  split; [done|]. split; [done|]. split.
  - rewrite Hkeys. unfold contains_in, add_state. simpl. rewrite lookup_insert_eq.
    destruct HI as (Hok & _). pose proof (ok_size s Hok).
    destruct (Z.eqb_spec (sz s + 1 - 1) (-1)); [lia|done].
  - intros key Hne. rewrite Hkeys. unfold contains_in, add_state. simpl.
    now rewrite lookup_insert_ne.
Qed.

(** *** updateKey *)

Lemma set_values_wf stale n v s :
  wf stale s -> wf stale (set_values (<[KNum n := Val v]>) s).
Proof.
  intros ([Hd Hsz Hlen Hslots Hout Hund Hcmp] & Hidx & Hst). split; [|split].
  - constructor; simpl; try assumption.
    + intros p Hp. destruct (Hslots p Hp) as (k & v' & Hh & Hpm & Hv).
      unfold slot_ok. simpl. destruct (decide (n = k)) as [->|Hne].
      * exists k, v. now rewrite lookup_insert_eq.
      * exists k, v'. rewrite lookup_insert_ne by congruence. done.
    + now rewrite lookup_insert_ne.
  - exact Hidx.
  - exact Hst.
Qed.

Lemma updateKey_run key v s :
  contains_in s key = true -> falsy (values_get s key) = false ->
  updateKey key v s =
    (sink (pm_get s key) ;; swim (pm_get s key) ;; ret true)
      (set_values (<[key := Val v]>) s).
Proof.
  intros Hc Hf. unfold updateKey, bind at 1, contains, gets at 1. rewrite Hc. simpl.
  unfold bind at 1, gets at 1. now rewrite Hf.
Qed.

(** On a well-formed heap [updateKey] returns, true or false, and keeps the
    heap well formed. *)
Lemma updateKey_inv key v s :
  Inv s ->
  exists b s', updateKey key v s = (Returned b, s') /\ Inv s' /\ sz s' = sz s /\
    same_keys s s'.
Proof.
  intros HI.
  destruct (contains_in s key) eqn:Hc; cycle 1.
  { exists false, s. unfold updateKey, bind, contains, gets. rewrite Hc. simpl.
    split; [done|]. split; [done|]. split; [done|]. now intros k. }
  destruct (falsy (values_get s key)) eqn:Hf.
  { exists false, s. unfold updateKey, bind, contains, gets. rewrite Hc. simpl.
    rewrite Hf. split; [done|]. split; [done|]. split; [done|]. now intros k. }
  rewrite updateKey_run by done.
  destruct (contained_slot s key HI Hc) as (n & v0 & -> & Hp & _).
  destruct (sink_swim_restored None (set_values (<[KNum n := Val v]>) s) (pm_get s (KNum n)))
    as (s' & Hrun & Hwf & (_ & Hsz & _) & Hkeys).
  { now apply set_values_wf. }
  { simpl. lia. }
  exists true, s'. split.
  - unfold bind in Hrun |- *.
    destruct (sink (pm_get s (KNum n)) (set_values (<[KNum n := Val v]>) s)) as [[[]| |] s1];
      try discriminate.
    now rewrite Hrun.
  - split; [done|]. split; [exact Hsz|]. exact Hkeys.
Qed.

(** *** deleteKey *)

Lemma deleteKey_run key v s :
  contains_in s key = true -> values_get s key = Val v ->
  deleteKey key s =
    (sink (pm_get s key) ;; swim (pm_get s key) ;;
     modify (set_pm (<[key := -1]>)) ;; ret (Val v)) (delete_state key s).
Proof.
  intros Hc Hv. unfold deleteKey, bind at 1, contains, gets at 1. rewrite Hc. simpl.
  unfold bind at 1, gets at 1. rewrite Hv.
  unfold bind at 1, modify at 1. unfold bind at 1, gets at 1.
  unfold bind at 1, size, gets at 1. unfold bind at 1. rewrite swap_run.
  unfold bind at 1, modify at 1. unfold bind at 1, modify at 1.
  reflexivity.
Qed.

Lemma swap_state_get_j i j s :
  arr_get (heap (swap_state i j s)) j = arr_get (heap s) i.
Proof. unfold swap_state, arr_get at 1, arr_set. simpl. now rewrite lookup_insert_eq. Qed.

(** Dropping the last position, whose key is being deleted. *)
Lemma remove_last_wf n s :
  Inv s -> 0 < sz s -> arr_get (heap s) (sz s - 1) = KNum n ->
  wf (Some (KNum n))
     (set_sz (fun m => m - 1) (set_heap arr_pop (set_values (<[KNum n := Null]>) s))).
Proof.
  intros (Hok & Hidx & _) Hpos Hlast.
  assert (Hother : forall p, 0 <= p < sz s - 1 -> arr_get (heap s) p <> KNum n).
  { intros p Hp Hg. assert (p = sz s - 1); [|lia].
    apply (slot_key_inj s p (sz s - 1) (KNum n)); try done; lia. }
  assert (Hpop : forall p, p <> sz s - 1 ->
            elems (arr_pop (heap s)) !! p = elems (heap s) !! p).
  { intros p Hp. unfold arr_pop. rewrite (ok_len s Hok).
    destruct (Z.eqb_spec (sz s) 0); [lia|]. simpl. now rewrite lookup_delete_ne by lia. }
  destruct Hok as [Hd Hsz Hlen Hslots Hout Hund Hcmp].
  split; [|split].
  - constructor; simpl; try assumption; try lia.
    + unfold arr_pop. rewrite Hlen. destruct (Z.eqb_spec (sz s) 0); [lia|done].
    + intros p Hp. destruct (Hslots p) as (k & v & Hh & Hpm & Hv); [lia|].
      exists k, v. simpl. rewrite Hpop by lia. split; [done|]. split; [done|].
      rewrite lookup_insert_ne; [done|].
      intros Heq. apply (Hother p Hp). rewrite Heq. now apply arr_get_slot.
    + intros p Hp. destruct (decide (p = sz s - 1)) as [->|Hne].
      * unfold arr_pop. rewrite Hlen. destruct (Z.eqb_spec (sz s) 0); [lia|].
        simpl. now rewrite lookup_delete_eq.
      * rewrite Hpop by done. apply Hout. lia.
    + now rewrite lookup_insert_ne.
  - intros k p Hk Hp Hm1. simpl in Hp |- *.
    destruct (Hidx k p) as [Hb Hg]; [done..|].
    assert (p <> sz s - 1) by (intros ->; congruence).
    split; [lia|]. unfold arr_get in Hg |- *. now rewrite Hpop.
  - intros k p [= <-] Hp. simpl in Hp |- *.
    unfold arr_get. rewrite Hpop by lia. now apply Hother.
Qed.

Lemma delete_state_wf key s :
  Inv s -> contains_in s key = true -> wf (Some key) (delete_state key s).
Proof.
  intros HI Hc.
  destruct (contained_slot s key HI Hc) as (n & v & -> & Hp & _ & Hg & _).
  set (p := pm_get s (KNum n)) in *.
  assert (Inv (swap_state p (sz s - 1) s)) as HI2 by (apply swap_state_wf; [done|lia..]).
  change (delete_state (KNum n) s) with
    (set_sz (fun m => m - 1)
       (set_heap arr_pop (set_values (<[KNum n := Null]>) (swap_state p (sz s - 1) s)))).
  apply remove_last_wf; [done| |].
  - change (sz (swap_state p (sz s - 1) s)) with (sz s). lia.
  - change (sz (swap_state p (sz s - 1) s)) with (sz s). now rewrite swap_state_get_j.
Qed.

(** Marking the deleted key absent ends the deletion. *)
Lemma clear_stale_wf key s :
  wf (Some key) s -> Inv (set_pm (<[key := -1]>) s).
Proof.
  intros ([Hd Hsz Hlen Hslots Hout Hund Hcmp] & Hidx & Hst). split; [|split].
  - constructor; simpl; try assumption.
    intros p Hp. destruct (Hslots p Hp) as (k & v & Hh & Hpm & Hv).
    exists k, v. simpl. split; [done|]. split; [|done].
    rewrite lookup_insert_ne; [done|].
    intros Heq. apply (Hst key p eq_refl Hp). rewrite Heq. now apply arr_get_slot.
  - intros k p _ Hp Hm1. simpl in Hp |- *.
    destruct (decide (key = k)) as [->|Hne].
    + rewrite lookup_insert_eq in Hp. congruence.
    + rewrite lookup_insert_ne in Hp by done. apply Hidx; [congruence|done..].
  - intros k p [=].
Qed.

(** On a well-formed heap [deleteKey] of a contained key returns its value,
    drops exactly that key and keeps the heap well formed. *)
Lemma deleteKey_contained key s :
  Inv s -> contains_in s key = true ->
  exists v s', deleteKey key s = (Returned (Val v), s') /\ Inv s' /\
    values_get s key = Val v /\
    sz s' = sz s - 1 /\
    contains_in s' key = false /\
    (forall k, k <> key -> contains_in s' k = contains_in s k).
Proof.
  intros HI Hc.
  destruct (contained_slot s key HI Hc) as (n & v & -> & Hp & _ & _ & Hv).
  assert (values_get s (KNum n) = Val v) as Hv' by (unfold values_get; now rewrite Hv).
  rewrite (deleteKey_run _ v) by done.
  pose proof (delete_state_wf (KNum n) s HI Hc) as Hwf.
  destruct (sink_swim_restored (Some (KNum n)) (delete_state (KNum n) s) (pm_get s (KNum n)) Hwf)
    as (s1 & Hrun & Hwf1 & (_ & Hsz & _) & Hkeys).
  { simpl. lia. }
  exists v, (set_pm (<[KNum n := -1]>) s1). split.
  - unfold bind in Hrun |- *.
    destruct (sink (pm_get s (KNum n)) (delete_state (KNum n) s)) as [[[]| |] s0];
      try discriminate.
    now rewrite Hrun.
  - split; [now apply clear_stale_wf|]. split; [done|]. split; [exact Hsz|]. split.
    + unfold contains_in. simpl. now rewrite lookup_insert_eq.
    + intros k Hne. transitivity (contains_in s1 k).
      { unfold contains_in. simpl. now rewrite lookup_insert_ne. }
      rewrite Hkeys.
      change (contains_in (delete_state (KNum n) s) k)
        with (contains_in (swap_state (pm_get s (KNum n)) (sz s - 1) s) k).
      apply swap_state_same_keys; [apply HI|lia..].
Qed.

(** *** decreaseKey and increaseKey *)

Lemma bind_gets {A B} (f : t T -> A) (k : A -> M T B) s :
  bind (gets f) k s = k (f s) s.
Proof. reflexivity. Qed.

Lemma bind_modify {B} (f : t T -> t T) (k : unit -> M T B) s :
  bind (modify f) k s = k tt (f s).
Proof. reflexivity. Qed.

Lemma bind_ret {A B} (a : A) (k : A -> M T B) s : bind (ret a) k s = k a s.
Proof. reflexivity. Qed.

Lemma set_values_twice key (x : jsval T) s :
  set_values (<[key := x]>) (set_values (<[key := x]>) s) = set_values (<[key := x]>) s.
Proof. unfold set_values. simpl. now rewrite insert_insert_eq. Qed.

(** The second, conditional assignment stores the value the first one has
    stored already. *)
Lemma decreaseKey_updateKey key v s : decreaseKey key v s = updateKey key v s.
Proof.
  unfold decreaseKey, updateKey, contains, lessForValues.
  rewrite !bind_gets. destruct (negb (contains_in s key)); [reflexivity|].
  rewrite !bind_gets. destruct (falsy (values_get s key)); [reflexivity|].
  rewrite !bind_modify, bind_gets.
  destruct (_ <? 0); [|now rewrite bind_ret].
  now rewrite bind_modify, set_values_twice.
Qed.

Lemma increaseKey_updateKey key v s : increaseKey key v s = updateKey key v s.
Proof.
  unfold increaseKey, updateKey, contains, lessForValues.
  rewrite !bind_gets. destruct (negb (contains_in s key)); [reflexivity|].
  rewrite !bind_gets. destruct (falsy (values_get s key)); [reflexivity|].
  rewrite !bind_modify, bind_gets.
  destruct (_ <? 0); [|now rewrite bind_ret].
  now rewrite bind_modify, set_values_twice.
Qed.

(** *** Keys that are not contained *)

Lemma add_contained key v s :
  contains_in s key = true -> add key v s = (Returned false, s).
Proof. intros Hc. unfold add, contains. rewrite bind_gets. now rewrite Hc. Qed.

Lemma updateKey_absent key v s :
  contains_in s key = false -> updateKey key v s = (Returned false, s).
Proof. intros Hc. unfold updateKey, contains. rewrite bind_gets. now rewrite Hc. Qed.

Lemma deleteKey_absent key s :
  contains_in s key = false -> deleteKey key s = (Returned Null, s).
Proof. intros Hc. unfold deleteKey, contains. rewrite bind_gets. now rewrite Hc. Qed.

Lemma valueOf_absent key s :
  contains_in s key = false -> valueOf key s = (Returned Null, s).
Proof. intros Hc. unfold valueOf, contains. rewrite bind_gets. now rewrite Hc. Qed.

Lemma valueOf_contained key s :
  contains_in s key = true -> valueOf key s = (Returned (values_get s key), s).
Proof. intros Hc. unfold valueOf, contains. rewrite bind_gets. now rewrite Hc. Qed.

(** *** poll *)

Lemma poll_run s :
  poll s = if sz s =? 0 then (Returned Null, s) else deleteKey (arr_get (heap s) 0) s.
Proof.
  unfold poll, isEmpty, size, bind, gets, ret. now destruct (sz s =? 0).
Qed.

(** In a well-formed heap of size 0 no key is contained. *)
Lemma empty_contains s key : Inv s -> sz s = 0 -> contains_in s key = false.
Proof.
  intros HI Hsz. destruct (contains_in s key) eqn:Hc; [|done].
  destruct (contained_slot s key HI Hc) as (n & v & _ & Hp & _). lia.
Qed.

(** *** Every call keeps the heap well formed *)

Lemma create_wf degree cf :
  (forall x, 0 <= compare (create (T:=T) degree cf) Undefined x) ->
  Inv (create degree cf).
Proof.
  intros Hcmp. split; [|split].
  - constructor; simpl; try done; try lia.
  - intros k p _ Hp. simpl in Hp. now rewrite lookup_empty in Hp.
  - intros k p [=].
Qed.

Lemma run_call_inv c s :
  Inv s -> exists r s', run_call c s = (Returned r, s') /\ Inv s'.
Proof.
  intros HI. destruct c as [k v|k v|k v|k v|k|]; simpl.
  - destruct (contains_in s (KNum k)) eqn:Hc.
    + exists (RBool false), s. unfold bind. now rewrite add_contained.
    + destruct (add_fresh k v s HI Hc) as (s' & Hadd & HI' & _).
      exists (RBool true), s'. unfold bind. now rewrite Hadd.
  - destruct (updateKey_inv (KNum k) v s HI) as (b & s' & Hup & HI' & _).
    exists (RBool b), s'. unfold bind. now rewrite Hup.
  - destruct (updateKey_inv (KNum k) v s HI) as (b & s' & Hup & HI' & _).
    exists (RBool b), s'. unfold bind. now rewrite decreaseKey_updateKey, Hup.
  - destruct (updateKey_inv (KNum k) v s HI) as (b & s' & Hup & HI' & _).
    exists (RBool b), s'. unfold bind. now rewrite increaseKey_updateKey, Hup.
  - destruct (contains_in s (KNum k)) eqn:Hc.
    + destruct (deleteKey_contained (KNum k) s HI Hc) as (v & s' & Hdel & HI' & _).
      exists (RValue (Val v)), s'. unfold bind. now rewrite Hdel.
    + exists (RValue Null), s. unfold bind. now rewrite deleteKey_absent.
  - unfold bind. rewrite poll_run. destruct (Z.eqb_spec (sz s) 0) as [Hz|Hnz].
    + now exists (RValue Null), s.
    + assert (contains_in s (arr_get (heap s) 0) = true) as Hc.
      { apply slot_contained; [apply HI|]. destruct HI as (Hok & _).
        pose proof (ok_size s Hok). lia. }
      destruct (deleteKey_contained _ s HI Hc) as (v & s' & Hdel & HI' & _).
      exists (RValue (Val v)), s'. now rewrite Hdel.
Qed.

(** No sequence of calls throws or is cut off, and the heap is well formed
    after it. *)
Lemma run_calls_inv cs s :
  Inv s -> exists rs s', run_calls cs s = (Returned rs, s') /\ Inv s'.
Proof.
  revert s. induction cs as [|c cs IH]; intros s HI; simpl.
  - now exists [], s.
  - destruct (run_call_inv c s HI) as (r & s1 & Hc & HI1).
    destruct (IH s1 HI1) as (rs & s2 & Hcs & HI2).
    exists (r :: rs), s2. unfold bind. now rewrite Hc, Hcs.
Qed.

Lemma Inv_index_invariant s : Inv s -> index_invariant s.
Proof.
  intros (Hok & _) p Hp. destruct (ok_slots s Hok p Hp) as (k & v & Hh & Hpm & _).
  now rewrite (arr_get_slot _ _ _ Hh).
Qed.

(** The index half of the heap invariant holds after every sequence of
    calls on a constructed heap. *)
Theorem index_invariant_preserved degree cf cs :
  (forall x, 0 <= compare (create (T:=T) degree cf) Undefined x) ->
  exists rs s', run_calls cs (create degree cf) = (Returned rs, s') /\
    index_invariant s'.
Proof.
  intros Hcmp. destruct (run_calls_inv cs _ (create_wf degree cf Hcmp)) as (rs & s' & Hrun & HI).
  exists rs, s'. split; [done|now apply Inv_index_invariant].
Qed.

(** *** The loop bound is not felt *)

(** A loop that returned or threw within its bound does the same under any
    larger bound, on every state. *)
Lemma sink_loop_more_fuel n m k s :
  fst (sink_loop n k s) <> OutOfFuel ->
  sink_loop (n + m) k s = sink_loop n k s.
Proof.
  revert k s. induction n as [|n IH]; intros k s Hne; [now simpl in Hne|].
  simpl in Hne |- *. unfold size, bind, gets in Hne |- *.
  destruct (sink_children _ _ s) as [[sm| |] s1]; try reflexivity.
  cbv beta iota in Hne |- *.
  destruct (lessForPositions k sm s1) as [[b| |] s2]; try reflexivity.
  destruct (_ || _); [reflexivity|].
  rewrite swap_run in Hne |- *. now apply IH.
Qed.

Lemma swim_loop_more_fuel n m k p s :
  fst (swim_loop n k p s) <> OutOfFuel ->
  swim_loop (n + m) k p s = swim_loop n k p s.
Proof.
  revert k p s. induction n as [|n IH]; intros k p s Hne; [now simpl in Hne|].
  simpl in Hne |- *. unfold bind, gets in Hne |- *.
  destruct ((if 0 <? k then lessForPositions k p else ret false) s) as [[[|]| |] s1];
    try reflexivity.
  rewrite swap_run in Hne |- *. now apply IH.
Qed.

Lemma after_Inv cs s : Inv s -> Inv (after cs s).
Proof.
  intros HI. destruct (run_calls_inv cs s HI) as (rs & s' & Hrun & HI').
  unfold after. now rewrite Hrun.
Qed.

(** The children list is [d] copies of the first child's position. *)
Lemma getChildrenPositions_replicate s p :
  getChildrenPositions s p = replicate (Z.to_nat (d s)) (p * d s + 1).
Proof.
  unfold getChildrenPositions, seqZ. generalize (Z.to_nat (d s)) as n. intros n.
  generalize 0%nat as m. induction n as [|n IH]; intros m; simpl; [done|].
  f_equal. apply IH.
Qed.

(** The parent position is the floor of [(p - 1) / d]. *)
Lemma getParentPosition_floor s p :
  0 < d s ->
  d s * getParentPosition s p <= p - 1 < d s * getParentPosition s p + d s.
Proof.
  intros Hd. unfold getParentPosition.
  pose proof (Z.div_mod (p - 1) (d s) ltac:(lia)).
  pose proof (Z.mod_pos_bound (p - 1) (d s) Hd). lia.
Qed.

(** A falsy stored value makes [updateKey] give up. *)
Lemma updateKey_falsy key v s :
  contains_in s key = true -> falsy (values_get s key) = true ->
  updateKey key v s = (Returned false, s).
Proof.
  intros Hc Hf. unfold updateKey, contains. rewrite bind_gets, Hc. simpl.
  now rewrite bind_gets, Hf.
Qed.

(** ** The claims *)

(** On every state, for every key and every new value, [decreaseKey] and
    [increaseKey] return what [updateKey] returns and leave the state it
    leaves, whichever way the new value compares with the old one.  They
    share its guards, the falsy one included. *)
Theorem decreaseKey_increaseKey_as_updateKey key (newValue : T) s :
  decreaseKey key newValue s = updateKey key newValue s /\
  increaseKey key newValue s = updateKey key newValue s.
Proof.
  split; [apply decreaseKey_updateKey|apply increaseKey_updateKey].
Qed.

(** C5. On every state [poll()] returns null and changes nothing when the
    size is 0, and otherwise is "read the key at position 0, then [deleteKey]
    it": same result, same final state.  On a well-formed heap the two cases
    are one: [poll()] is [deleteKey] of the key read at position 0. *)
Theorem poll_as_deleteKey s :
  poll s = (if sz s =? 0 then (Returned Null, s)
            else deleteKey (arr_get (heap s) 0) s) /\
  (Inv s -> poll s = deleteKey (arr_get (heap s) 0) s).
Proof.
  split; [apply poll_run|].
  intros HI. rewrite poll_run. destruct (Z.eqb_spec (sz s) 0) as [Hz|Hnz]; [|done].
  rewrite deleteKey_absent; [done|]. now apply empty_contains.
Qed.

(** C7. [add] of a contained key returns false and changes nothing; [add] of
    a key that is not contained returns true, after which a second [add] of
    it with another value returns false, changes nothing, and [valueOf] still
    gives the first value. *)
Theorem add_twice_keeps_first n (v v' : T) s :
  Inv s -> contains_in s (KNum n) = false ->
  (forall s2 key w, contains_in s2 key = true -> add key w s2 = (Returned false, s2)) /\
  exists s1,
    add (KNum n) v s = (Returned true, s1) /\
    add (KNum n) v' s1 = (Returned false, s1) /\
    valueOf (KNum n) s1 = (Returned (Val v), s1).
Proof.
  intros HI Hc. split; [intros s2 key w; apply add_contained|].
  destruct (add_fresh n v s HI Hc) as (s1 & Hadd & _ & _ & Hval & Hc1 & _).
  exists s1. split; [done|]. split; [now apply add_contained|].
  rewrite valueOf_contained by done. unfold values_get.
  now rewrite Hval, lookup_insert_eq.
Qed.

(** C9. For a key that is not contained, [updateKey], [decreaseKey],
    [increaseKey], [deleteKey] and [valueOf] return false or null, do not
    throw, and leave the whole state as it was. *)
Theorem absent_key_noop key (v : T) s :
  contains_in s key = false ->
  updateKey key v s = (Returned false, s) /\
  decreaseKey key v s = (Returned false, s) /\
  increaseKey key v s = (Returned false, s) /\
  deleteKey key s = (Returned Null, s) /\
  valueOf key s = (Returned Null, s).
Proof.
  intros Hc. rewrite decreaseKey_updateKey, increaseKey_updateKey.
  rewrite updateKey_absent, deleteKey_absent, valueOf_absent by done. done.
Qed.


End Facts.

(** ** Heaps of numbers *)

Lemma fresh_Inv degree : Inv (fresh degree).
Proof. apply create_wf. intros x. simpl. lia. Qed.

Lemma poll_as_deleteKey_witness :
  Inv (after [Add 0 5; Add 1 3] (fresh 2)) /\
  poll (after [Add 0 5; Add 1 3] (fresh 2)) =
    deleteKey (KNum 1) (after [Add 0 5; Add 1 3] (fresh 2)).
Proof.
  split; [apply after_Inv, fresh_Inv|].
  apply (proj2 (poll_as_deleteKey (after [Add 0 5; Add 1 3] (fresh 2)))
           (after_Inv _ _ (fresh_Inv 2))).
Defined.

Lemma add_twice_keeps_first_witness :
  Inv (fresh 2) /\ contains_in (fresh 2) (KNum 0) = false /\
  exists s1,
    add (KNum 0) 5 (fresh 2) = (Returned true, s1) /\
    add (KNum 0) 7 s1 = (Returned false, s1) /\
    valueOf (KNum 0) s1 = (Returned (Val 5), s1).
Proof.
  split; [apply fresh_Inv|]. split; [reflexivity|].
  apply (add_twice_keeps_first 0 5 7 (fresh 2) (fresh_Inv 2) eq_refl).
Defined.

Lemma absent_key_noop_witness :
  contains_in (after [Add 0 5] (fresh 2)) (KNum 7) = false /\
  updateKey (KNum 7) 1 (after [Add 0 5] (fresh 2)) =
    (Returned false, after [Add 0 5] (fresh 2)).
Proof.
  split; [reflexivity|].
  apply (absent_key_noop (KNum 7) 1 (after [Add 0 5] (fresh 2)) eq_refl).
Defined.



(** C1. After [add(0,1)], [add(1,3)], [add(2,2)], [add(3,4)] and one [poll()]
    on a heap of degree 2, position 0 holds the value 3 and its second child,
    position 2, holds the value 2: the parent compares greater than a valid
    child, so the heap invariant does not hold in the resulting state.
    ([sink] only ever looks at the first child.) *)
Theorem order_invariant_broken_after_poll :
  run_calls order_calls (fresh 2) =
    (Returned [RBool true; RBool true; RBool true; RBool true; RValue (Val 1)],
     after order_calls (fresh 2)) /\
  sz (after order_calls (fresh 2)) = 3 /\
  value_at (after order_calls (fresh 2)) 0 = Val 3 /\
  value_at (after order_calls (fresh 2)) 2 = Val 2 /\
  ~ heap_invariant (after order_calls (fresh 2)).
Proof.
  split; [now vm_compute|]. split; [now vm_compute|].
  split; [now vm_compute|]. split; [now vm_compute|].
  intros [_ Hord].
  assert (compare (after order_calls (fresh 2))
            (value_at (after order_calls (fresh 2)) 0)
            (value_at (after order_calls (fresh 2)) 2) <= 0) as Hle.
  { apply Hord; vm_compute; intuition discriminate. }
  vm_compute in Hle. now apply Hle.
Qed.

(** C2. The children the heap uses for a position [p] are [d] copies of
    [p*d + 1], not the [d] positions [p*d + 1 .. p*d + d]: for position 0 at
    degree 2 they are [1; 1], for position 1 at degree 3 they are [4; 4; 4].
    The parent position is [(p - 1) / d] rounded down; the parent of
    position 5 at degree 3 is 1. *)
Theorem children_positions_are_copies :
  (forall (s : t Z) p,
     getChildrenPositions s p = replicate (Z.to_nat (d s)) (p * d s + 1)) /\
  getChildrenPositions (fresh 2) 0 = [1; 1] /\
  getChildrenPositions (fresh 3) 1 = [4; 4; 4] /\
  (forall (s : t Z) p, getParentPosition s p = (p - 1) `div` d s) /\
  getParentPosition (fresh 3) 5 = 1.
Proof.
  split; [intros s p; apply getChildrenPositions_replicate|].
  split; [reflexivity|]. split; [reflexivity|].
  split; [reflexivity|reflexivity].
Qed.

(** C3. After [add(0, 0)] key 0 is contained, yet [updateKey(0, 5)] returns
    false and leaves the state, stored value included, as it was: the stored
    value 0 is falsy. *)
Theorem updateKey_rejects_stored_zero :
  contains_in (after [Add 0 0] (fresh 2)) (KNum 0) = true /\
  updateKey (KNum 0) 5 (after [Add 0 0] (fresh 2)) =
    (Returned false, after [Add 0 0] (fresh 2)) /\
  values_get (after [Add 0 0] (fresh 2)) (KNum 0) = Val 0.
Proof. now vm_compute. Qed.

(** C4. After [add(0, 0)] key 0 is contained, yet [decreaseKey(0, 5)] and
    [increaseKey(0, 5)] return false and leave the state, stored value
    included, as it was: the replacement value is not applied and neither
    sink nor swim runs, because the stored value 0 is falsy.  [updateKey]
    does the same there. *)
Theorem decreaseKey_increaseKey_reject_stored_zero :
  contains_in (after [Add 0 0] (fresh 2)) (KNum 0) = true /\
  decreaseKey (KNum 0) 5 (after [Add 0 0] (fresh 2)) =
    (Returned false, after [Add 0 0] (fresh 2)) /\
  increaseKey (KNum 0) 5 (after [Add 0 0] (fresh 2)) =
    (Returned false, after [Add 0 0] (fresh 2)) /\
  updateKey (KNum 0) 5 (after [Add 0 0] (fresh 2)) =
    (Returned false, after [Add 0 0] (fresh 2)) /\
  values_get (after [Add 0 0] (fresh 2)) (KNum 0) = Val 0.
Proof.
  split; [reflexivity|]. split; [now vm_compute|]. split; [now vm_compute|].
  split; [now vm_compute|reflexivity].
Qed.

(** C6. In the heap holding only key 0, position 1 is out of bounds and
    resolves to [undefined]; [lessForPositions] at it returns instead of
    throwing, and [sink(0)], which compares position 1 with itself and
    position 0 with position 1 before it looks at the bounds, returns too;
    so does [updateKey(0, 7)], which runs it. *)
Theorem comparison_with_undefined_returns :
  value_at (after [Add 0 5] (fresh 2)) 1 = Undefined /\
  lessForPositions 1 1 (after [Add 0 5] (fresh 2)) =
    (Returned false, after [Add 0 5] (fresh 2)) /\
  lessForPositions 0 1 (after [Add 0 5] (fresh 2)) =
    (Returned false, after [Add 0 5] (fresh 2)) /\
  sink 0 (after [Add 0 5] (fresh 2)) = (Returned tt, after [Add 0 5] (fresh 2)) /\
  fst (updateKey (KNum 0) 7 (after [Add 0 5] (fresh 2))) = Returned true.
Proof. now vm_compute. Qed.

(** C8. With keys 0..4 holding 5, 3, 8, 1, 9, five [poll()] calls on a heap
    of degree 2 give the values 1, 3, 5, 8, 9 from the keys 3, 1, 0, 2, 4; on
    a heap of degree 3 they give 1, 5, 3, 8, 9 from the keys 3, 0, 1, 2, 4. *)
Theorem extraction_order_by_degree :
  polls 5 (after extraction_calls (fresh 2)) =
    [(KNum 3, Returned (Val 1)); (KNum 1, Returned (Val 3));
     (KNum 0, Returned (Val 5)); (KNum 2, Returned (Val 8));
     (KNum 4, Returned (Val 9))] /\
  polls 5 (after extraction_calls (fresh 3)) =
    [(KNum 3, Returned (Val 1)); (KNum 0, Returned (Val 5));
     (KNum 1, Returned (Val 3)); (KNum 2, Returned (Val 8));
     (KNum 4, Returned (Val 9))].
Proof. now vm_compute. Qed.

(** ** More about the methods *)

Section More.

Context {T : Type} `{Payload T}.

Implicit Types (s : t T) (key : jskey).

Notation "m ';;' k" := (bind m (fun _ => k))
  (at level 100, k at level 200, right associativity).

Lemma values_get_insert key k (x : jsval T) s s' :
  values s' = <[key := x]> (values s) ->
  values_get s' k = if decide (k = key) then x else values_get s k.
Proof.
  intros Hv. unfold values_get. rewrite Hv.
  destruct (decide (k = key)) as [->|Hne].
  - now rewrite lookup_insert_eq.
  - now rewrite lookup_insert_ne by congruence.
Qed.

(** [updateKey] of a contained key with a truthy stored value. *)
Lemma updateKey_contained key v s :
  Inv s -> contains_in s key = true -> falsy (values_get s key) = false ->
  exists s', updateKey key v s = (Returned true, s') /\ Inv s' /\
    sz s' = sz s /\ values s' = <[key := Val v]> (values s) /\ same_keys s s'.
Proof.
  intros HI Hc Hf. rewrite updateKey_run by done.
  destruct (contained_slot s key HI Hc) as (n & v0 & -> & Hp & _).
  destruct (sink_swim_restored None (set_values (<[KNum n := Val v]>) s) (pm_get s (KNum n)))
    as (s' & Hrun & Hwf & (_ & Hsz & Hval & _) & Hkeys).
  { now apply set_values_wf. }
  { simpl. lia. }
  exists s'. split.
  - unfold bind in Hrun |- *.
    destruct (sink (pm_get s (KNum n)) (set_values (<[KNum n := Val v]>) s)) as [[[]| |] s1];
      try discriminate.
    now rewrite Hrun.
  - split; [done|]. split; [exact Hsz|]. split; [exact Hval|exact Hkeys].
Qed.

(** [deleteKey] of a contained key, with what it leaves in [values]. *)
Lemma deleteKey_contained_values key s :
  Inv s -> contains_in s key = true ->
  exists v s', deleteKey key s = (Returned (Val v), s') /\ Inv s' /\
    values_get s key = Val v /\
    sz s' = sz s - 1 /\
    values s' = <[key := Null]> (values s) /\
    contains_in s' key = false /\
    (forall k, k <> key -> contains_in s' k = contains_in s k).
Proof.
  intros HI Hc.
  destruct (contained_slot s key HI Hc) as (n & v & -> & Hp & _ & _ & Hv).
  assert (values_get s (KNum n) = Val v) as Hv' by (unfold values_get; now rewrite Hv).
  rewrite (deleteKey_run _ v) by done.
  pose proof (delete_state_wf (KNum n) s HI Hc) as Hwf.
  destruct (sink_swim_restored (Some (KNum n)) (delete_state (KNum n) s) (pm_get s (KNum n)) Hwf)
    as (s1 & Hrun & Hwf1 & (_ & Hsz & Hval & _) & Hkeys).
  { simpl. lia. }
  exists v, (set_pm (<[KNum n := -1]>) s1). split.
  - unfold bind in Hrun |- *.
    destruct (sink (pm_get s (KNum n)) (delete_state (KNum n) s)) as [[[]| |] s0];
      try discriminate.
    now rewrite Hrun.
  - split; [now apply clear_stale_wf|]. split; [done|]. split; [exact Hsz|].
    split; [exact Hval|]. split.
    + unfold contains_in. simpl. now rewrite lookup_insert_eq.
    + intros k Hne. transitivity (contains_in s1 k).
      { unfold contains_in. simpl. now rewrite lookup_insert_ne. }
      rewrite Hkeys.
      change (contains_in (delete_state (KNum n) s) k)
        with (contains_in (swap_state (pm_get s (KNum n)) (sz s - 1) s) k).
      apply swap_state_same_keys; [apply HI|lia..].
Qed.

(** On a well-formed heap a contained key has a payload stored. *)
Lemma contained_value s key :
  Inv s -> contains_in s key = true -> exists v, values_get s key = Val v.
Proof.
  intros HI Hc. destruct (contained_slot s key HI Hc) as (n & v & _ & _ & _ & _ & Hv).
  exists v. unfold values_get. now rewrite Hv.
Qed.

(** *** Counting the contained keys *)

Lemma elem_of_contained_keys s key :
  key ∈ contained_keys s <-> contains_in s key = true.
Proof.
  unfold contained_keys. rewrite elem_of_dom, contains_in_true. split.
  - intros [p Hp]. apply map_lookup_filter_Some in Hp as [Hp Hne]. now exists p.
  - intros (p & Hp & Hne). exists p. now apply map_lookup_filter_Some.
Qed.

(** The contained keys are the keys at the positions [0 .. sz - 1], each
    once. *)
Lemma contained_keys_positions s :
  Inv s ->
  contained_keys s = list_to_set ((fun p => arr_get (heap s) p) <$> seqZ 0 (sz s)) /\
  NoDup ((fun p => arr_get (heap s) p) <$> seqZ 0 (sz s)).
Proof.
  intros HI. split.
  - apply set_eq. intros key.
    rewrite elem_of_list_to_set, elem_of_contained_keys, list_elem_of_fmap. split.
    + intros Hc. destruct (contained_slot s key HI Hc) as (n & v & _ & Hp & _ & Hg & _).
      exists (pm_get s key). split; [done|]. apply elem_of_seqZ. lia.
    + intros (p & -> & Hp). apply elem_of_seqZ in Hp.
      apply slot_contained; [apply HI|lia].
  - apply NoDup_fmap_2_strong; [|apply NoDup_seqZ].
    intros p q Hp Hq Heq. apply elem_of_seqZ in Hp, Hq.
    apply (slot_key_inj s p q (arr_get (heap s) q)); [apply HI|lia|lia|done|done].
Qed.

Lemma size_contained_keys s :
  Inv s -> Z.of_nat (stdpp.base.size (contained_keys s)) = sz s.
Proof.
  intros HI. destruct (contained_keys_positions s HI) as [-> Hnd].
  rewrite size_list_to_set by done. rewrite length_fmap, length_seqZ.
  destruct HI as (Hok & _). pose proof (ok_size s Hok). lia.
Qed.

(** *** Parents and children *)

Lemma getParentPosition_child s p i :
  1 <= i <= d s -> getParentPosition s (p * d s + i) = p.
Proof.
  intros Hi. unfold getParentPosition.
  replace (p * d s + i - 1) with (p * d s + (i - 1)) by lia.
  rewrite Z.div_add_l by lia. rewrite Z.div_small by lia. lia.
Qed.

Lemma getParentPosition_range s c :
  1 <= d s ->
  getParentPosition s c * d s + 1 <= c <= getParentPosition s c * d s + d s.
Proof. intros Hd. pose proof (getParentPosition_floor s c ltac:(lia)). lia. Qed.

Lemma order_invariant_parent_order s :
  2 <= d s -> (order_invariant s <-> parent_order s).
Proof.
  intros Hd. split.
  - intros Hord c Hc.
    pose proof (getParentPosition_bounds s c Hd ltac:(lia)).
    pose proof (getParentPosition_range s c ltac:(lia)).
    apply Hord; lia.
  - intros Hpar p c Hp Hrange Hc.
    replace p with (getParentPosition s c).
    + apply Hpar. nia.
    + replace c with (p * d s + (c - p * d s)) by lia.
      apply getParentPosition_child. lia.
Qed.

(** *** [swim] restores the heap order *)

Lemma arr_get_swap s i j p :
  arr_get (heap (swap_state i j s)) p =
    if decide (p = j) then arr_get (heap s) i
    else if decide (p = i) then arr_get (heap s) j
    else arr_get (heap s) p.
Proof.
  unfold swap_state, arr_set. simpl. unfold arr_get at 1. simpl.
  destruct (decide (p = j)) as [->|Hj]; [now rewrite lookup_insert_eq|].
  rewrite lookup_insert_ne by congruence.
  destruct (decide (p = i)) as [->|Hi]; [now rewrite lookup_insert_eq|].
  now rewrite lookup_insert_ne by congruence.
Qed.

(** A swap exchanges the values two positions resolve to. *)
Lemma value_at_swap s i j p :
  value_at (swap_state i j s) p =
    value_at s (if decide (p = j) then i else if decide (p = i) then j else p).
Proof.
  unfold value_at. rewrite arr_get_swap.
  change (values_get (swap_state i j s)) with (values_get s).
  now repeat case_decide.
Qed.

Lemma value_at_swap_j s i j : value_at (swap_state i j s) j = value_at s i.
Proof. rewrite value_at_swap. now rewrite decide_True. Qed.

Lemma value_at_swap_i s i j : value_at (swap_state i j s) i = value_at s j.
Proof. rewrite value_at_swap. destruct (decide (i = j)) as [->|]; [done|]. now rewrite decide_True. Qed.

Lemma value_at_swap_other s i j p :
  p <> i -> p <> j -> value_at (swap_state i j s) p = value_at s p.
Proof. intros Hi Hj. rewrite value_at_swap. now rewrite !decide_False. Qed.

(** [compare a b <= 0] between the values at occupied positions. *)
Lemma order_trans s a b c :
  heap_ok s -> comparator_ok (compare s) ->
  0 <= a < sz s -> 0 <= b < sz s -> 0 <= c < sz s ->
  compare s (value_at s a) (value_at s b) <= 0 ->
  compare s (value_at s b) (value_at s c) <= 0 ->
  compare s (value_at s a) (value_at s c) <= 0.
Proof.
  intros Hok Hcmp Ha Hb Hc.
  destruct (value_at_inside s a Hok Ha) as [x ->].
  destruct (value_at_inside s b Hok Hb) as [y ->].
  destruct (value_at_inside s c Hok Hc) as [z ->].
  apply (cmp_trans Hcmp).
Qed.

Lemma order_total s a b :
  heap_ok s -> comparator_ok (compare s) ->
  0 <= a < sz s -> 0 <= b < sz s ->
  0 <= compare s (value_at s a) (value_at s b) ->
  compare s (value_at s b) (value_at s a) <= 0.
Proof.
  intros Hok Hcmp Ha Hb.
  destruct (value_at_inside s a Hok Ha) as [x ->].
  destruct (value_at_inside s b Hok Hb) as [y ->].
  apply (cmp_total Hcmp).
Qed.

(** One swap of [swim] hands the exception from [k] to its parent. *)
Lemma swim_order_swap stale s k :
  wf stale s -> comparator_ok (compare s) -> 0 < k < sz s ->
  swim_order s k ->
  compare s (value_at s k) (value_at s (getParentPosition s k)) < 0 ->
  swim_order (swap_state k (getParentPosition s k) s) (getParentPosition s k).
Proof.
  intros (Hok & _) Hcmp Hk [Hrest Hkids] Hless.
  pose proof (ok_degree s Hok) as Hd.
  assert (Hpar : forall c, 0 < c -> 0 <= getParentPosition s c < c).
  { intros c Hc. apply getParentPosition_bounds; lia. }
  pose proof (Hpar k ltac:(lia)) as Hp.
  remember (getParentPosition s k) as p eqn:Ep.
  split.
  - intros c Hc Hne.
    change (sz (swap_state k p s)) with (sz s) in Hc.
    change (getParentPosition (swap_state k p s) c) with (getParentPosition s c).
    change (compare (swap_state k p s)) with (compare s).
    pose proof (Hpar c ltac:(lia)) as Hpc.
    destruct (decide (c = k)) as [->|Hck].
    { (* the swapped pair itself *)
      rewrite <- Ep, value_at_swap_j, value_at_swap_i. lia. }
    rewrite (value_at_swap_other s k p c) by done.
    destruct (decide (getParentPosition s c = p)) as [Hcp|Hcp].
    { (* another child of the parent *)
      rewrite Hcp, value_at_swap_j.
      apply (order_trans s k p c); try done; try lia.
      rewrite <- Hcp at 1. apply Hrest; [lia|done]. }
    destruct (decide (getParentPosition s c = k)) as [Hck'|Hck'].
    { (* a child of [k] *)
      rewrite Hck', value_at_swap_i. apply Hkids; [lia|done|lia]. }
    rewrite value_at_swap_other by done. apply Hrest; [lia|done].
  - intros c Hc Hcp Hp0.
    change (sz (swap_state k p s)) with (sz s) in Hc.
    change (getParentPosition (swap_state k p s) c) with (getParentPosition s c) in Hcp.
    change (getParentPosition (swap_state k p s) p) with (getParentPosition s p).
    change (compare (swap_state k p s)) with (compare s).
    pose proof (Hpar p ltac:(lia)) as Hpp.
    pose proof (Hpar c ltac:(lia)) as Hpc.
    assert (compare s (value_at s (getParentPosition s p)) (value_at s p) <= 0) as Hgp.
    { apply Hrest; lia. }
    rewrite (value_at_swap_other s k p (getParentPosition s p)) by lia.
    destruct (decide (c = k)) as [->|Hck]; [now rewrite value_at_swap_i|].
    rewrite value_at_swap_other by lia.
    apply (order_trans s (getParentPosition s p) p c); try done; try lia.
    rewrite <- Hcp at 1. apply Hrest; [lia|done].
Qed.

(** From a position whose subtree and surroundings are in order, [swim]
    returns with the whole heap in order. *)
Lemma swim_loop_order stale fuel k s :
  wf stale s -> comparator_ok (compare s) -> 0 <= k < sz s ->
  swim_order s k -> (Z.to_nat k < fuel)%nat ->
  exists s', swim_loop fuel k (getParentPosition s k) s = (Returned tt, s') /\
    parent_order s'.
Proof.
  revert k s. induction fuel as [|fuel IH]; intros k s Hwf Hcmp Hk Hord Hfuel; [lia|].
  pose proof (proj1 Hwf) as Hok. pose proof (ok_degree s Hok) as Hd.
  rewrite swim_loop_step by done.
  destruct (0 <? k) eqn:Ek; simpl.
  2:{ apply Z.ltb_ge in Ek. exists s. split; [done|]. intros c Hc.
      apply (proj1 Hord); lia. }
  apply Z.ltb_lt in Ek.
  pose proof (getParentPosition_bounds s k Hd Ek) as Hp.
  destruct (_ <? 0) eqn:Ec.
  - apply Z.ltb_lt in Ec.
    change (getParentPosition s (getParentPosition s k))
      with (getParentPosition (swap_state k (getParentPosition s k) s) (getParentPosition s k)).
    apply IH.
    + apply swap_state_wf; [done|lia..].
    + exact Hcmp.
    + change (sz (swap_state k (getParentPosition s k) s)) with (sz s). lia.
    + apply (swim_order_swap stale); [done|done|lia|done|done].
    + lia.
  - apply Z.ltb_ge in Ec. exists s. split; [done|]. intros c Hc.
    destruct (decide (c = k)) as [->|Hne].
    + apply order_total; [done|done|lia|lia|done].
    + now apply (proj1 Hord).
Qed.

(** *** [add] keeps the heap order *)

Lemma value_at_add_state n v s c :
  Inv s -> contains_in s (KNum n) = false -> 0 <= c < sz s ->
  value_at (add_state (KNum n) v s) c = value_at s c.
Proof.
  intros (Hok & _) Hc Hb.
  destruct (ok_slots s Hok c Hb) as (k & x & Hh & Hpm & Hv).
  pose proof (slot_contained s c Hok Hb) as Hck. rewrite (arr_get_slot _ _ _ Hh) in Hck.
  unfold value_at, arr_get, values_get, add_state, arr_push. simpl.
  rewrite (ok_len s Hok). rewrite (lookup_insert_ne (elems (heap s))) by lia. rewrite Hh.
  rewrite lookup_insert_ne by congruence. done.
Qed.

Lemma add_state_swim_order n v s :
  Inv s -> contains_in s (KNum n) = false -> parent_order s ->
  swim_order (add_state (KNum n) v s) (sz s).
Proof.
  intros HI Hc Hord. pose proof (proj1 HI) as Hok.
  pose proof (ok_degree s Hok) as Hd. split.
  - intros c Hb Hne.
    change (sz (add_state (KNum n) v s)) with (sz s + 1) in Hb.
    change (getParentPosition (add_state (KNum n) v s) c) with (getParentPosition s c).
    change (compare (add_state (KNum n) v s)) with (compare s).
    pose proof (getParentPosition_bounds s c Hd ltac:(lia)).
    rewrite !value_at_add_state by (done || lia). apply Hord. lia.
  - intros c Hb Hpar Hk.
    change (sz (add_state (KNum n) v s)) with (sz s + 1) in Hb.
    change (getParentPosition (add_state (KNum n) v s) c) with (getParentPosition s c) in Hpar.
    pose proof (getParentPosition_bounds s c Hd ltac:(lia)). lia.
Qed.

(** [add] of a key that is not contained, on an ordered heap. *)
Lemma add_fresh_order n v s :
  Inv s -> comparator_ok (compare s) -> parent_order s ->
  contains_in s (KNum n) = false ->
  exists s', add (KNum n) v s = (Returned true, s') /\ Inv s' /\
    parent_order s' /\ compare s' = compare s /\
    values s' = <[KNum n := Val v]> (values s) /\
    (forall key, contains_in s' key = true -> key = KNum n \/ contains_in s key = true).
Proof.
  intros HI Hcmp Hord Hc.
  destruct (add_fresh n v s HI Hc) as (s' & Hadd & HI' & _ & Hval & _ & Hkeys).
  pose proof (add_state_wf n v s HI Hc) as HI1.
  destruct (swim_loop_order None (S (Z.to_nat (sz s + 1 - 1)))
              (sz s + 1 - 1) (add_state (KNum n) v s) HI1) as (s2 & Hswim & Hord2).
  { exact Hcmp. }
  { change (sz (add_state (KNum n) v s)) with (sz s + 1).
    pose proof (ok_size s (proj1 HI)). lia. }
  { replace (sz s + 1 - 1) with (sz s) by lia. now apply add_state_swim_order. }
  { lia. }
  assert (swim (sz s + 1 - 1) (add_state (KNum n) v s) = (Returned tt, s2)) as Hsw2.
  { unfold swim. rewrite bind_gets. exact Hswim. }
  assert (s' = s2 /\ compare s' = compare s) as [-> Hcs].
  { rewrite add_run in Hadd by done. unfold bind in Hadd.
    rewrite Hsw2 in Hadd. injection Hadd as <-.
    split; [done|].
    destruct (swim_restored None (add_state (KNum n) v s) (sz s + 1 - 1) HI1)
      as (s3 & Hsw & _ & (_ & _ & _ & Hc3) & _).
    { change (sz (add_state (KNum n) v s)) with (sz s + 1).
      pose proof (ok_size s (proj1 HI)). lia. }
    rewrite Hsw2 in Hsw. injection Hsw as <-.
    exact Hc3. }
  exists s2. split; [done|]. split; [done|]. split; [done|]. split; [done|].
  split; [done|].
  intros key Hk. destruct (decide (key = KNum n)) as [|Hne]; [now left|right].
  now rewrite <- Hkeys.
Qed.

(** In an ordered heap the root compares no greater than any position. *)
Lemma root_minimum s :
  heap_ok s -> comparator_ok (compare s) -> parent_order s ->
  forall c, 0 <= c < sz s -> compare s (value_at s 0) (value_at s c) <= 0.
Proof.
  intros Hok Hcmp Hord.
  assert (Hall : forall m : nat, forall c, 0 <= c <= Z.of_nat m -> c < sz s ->
            compare s (value_at s 0) (value_at s c) <= 0).
  { induction m as [|m IH]; intros c Hc Hlt.
    - replace c with 0 in * by lia.
      destruct (value_at_inside s 0 Hok ltac:(lia)) as [x ->].
      destruct (Z.le_gt_cases (compare s (Val x) (Val x)) 0) as [Hle|Hgt]; [done|].
      apply (cmp_total Hcmp). lia.
    - destruct (decide (c = 0)) as [->|Hne]; [apply IH; lia|].
      pose proof (getParentPosition_bounds s c (ok_degree s Hok) ltac:(lia)) as Hp.
      apply (order_trans s 0 (getParentPosition s c) c); try done; try lia.
      + apply IH; lia.
      + apply Hord. lia. }
  intros c Hc. apply (Hall (Z.to_nat c)); lia.
Qed.

Lemma run_adds_cons k v kvs s :
  run_calls (adds ((k, v) :: kvs)) s =
    match add (KNum k) v s with
    | (Returned b, s1) =>
        match run_calls (adds kvs) s1 with
        | (Returned rs, s2) => (Returned (RBool b :: rs), s2)
        | (Thrown e, s2) => (Thrown e, s2)
        | (OutOfFuel, s2) => (OutOfFuel, s2)
        end
    | (Thrown e, s1) => (Thrown e, s1)
    | (OutOfFuel, s1) => (OutOfFuel, s1)
    end.
Proof.
  change (run_calls (adds ((k, v) :: kvs)) s)
    with (bind (bind (add (KNum k) v) (fun b => ret (RBool b)))
            (fun r => bind (run_calls (adds kvs)) (fun rs => ret (r :: rs))) s).
  unfold bind, ret. destruct (add (KNum k) v s) as [[b| |] s1]; try reflexivity.
Qed.

Lemma run_adds_order kvs s :
  Inv s -> comparator_ok (compare s) -> parent_order s ->
  exists rs s', run_calls (adds kvs) s = (Returned rs, s') /\ Inv s' /\
    parent_order s' /\ compare s' = compare s.
Proof.
  revert s. induction kvs as [|[k v] kvs IH]; intros s HI Hcmp Hord.
  - now exists [], s.
  - rewrite run_adds_cons. destruct (contains_in s (KNum k)) eqn:Hc.
    + destruct (IH s HI Hcmp Hord) as (rs & s' & Hrun & HI' & Hord' & Hcs).
      exists (RBool false :: rs), s'. split; [|done].
      rewrite add_contained by done. now rewrite Hrun.
    + destruct (add_fresh_order k v s HI Hcmp Hord Hc)
        as (s1 & Hadd & HI1 & Hord1 & Hcs1 & _).
      destruct (IH s1 HI1) as (rs & s' & Hrun & HI' & Hord' & Hcs); [congruence|done|].
      exists (RBool true :: rs), s'. split; [|split; [done|split; [done|congruence]]].
      rewrite Hadd. now rewrite Hrun.
Qed.

(** *** peek and poll *)

Lemma peek_run s :
  peek s = if sz s =? 0 then (Returned Null, s) else (Returned (value_at s 0), s).
Proof. unfold peek, isEmpty, size, bind, gets, ret. now destruct (sz s =? 0). Qed.

(** [poll] on a well-formed heap that is not empty. *)
Lemma poll_nonempty s :
  Inv s -> sz s <> 0 ->
  exists v s', poll s = (Returned (Val v), s') /\ Inv s' /\
    value_at s 0 = Val v /\
    sz s' = sz s - 1 /\
    values s' = <[arr_get (heap s) 0 := Null]> (values s) /\
    contains_in s (arr_get (heap s) 0) = true /\
    contains_in s' (arr_get (heap s) 0) = false /\
    (forall k, k <> arr_get (heap s) 0 -> contains_in s' k = contains_in s k).
Proof.
  intros HI Hnz. rewrite poll_run. destruct (Z.eqb_spec (sz s) 0) as [|_]; [done|].
  assert (contains_in s (arr_get (heap s) 0) = true) as Hc.
  { apply slot_contained; [apply HI|]. pose proof (ok_size s (proj1 HI)). lia. }
  destruct (deleteKey_contained_values _ s HI Hc)
    as (v & s' & Hdel & HI' & Hv & Hsz & Hval & Hgone & Hkeys).
  exists v, s'. repeat (split; [done|]). done.
Qed.

(** *** Polling until the heap is empty *)

Lemma polls_drain n s :
  Inv s -> sz s = Z.of_nat n ->
  Forall (fun kr => contains_in s kr.1 = true /\ kr.2 = Returned (values_get s kr.1))
         (polls n s) /\
  NoDup ((polls n s).*1) /\
  (forall key, contains_in s key = true -> key ∈ (polls n s).*1) /\
  length (polls n s) = n /\
  Inv (after_polls n s) /\ sz (after_polls n s) = 0.
Proof.
  revert s. induction n as [|n IH]; intros s HI Hsz; simpl.
  - split; [constructor|]. split; [constructor|]. split; [|done].
    intros key Hc. rewrite (empty_contains s key HI) in Hc by lia. discriminate.
  - destruct (poll_nonempty s HI ltac:(lia))
      as (v & s' & Hpoll & HI' & Hv & Hsz' & Hval & Hroot & Hgone & Hkeys).
    rewrite Hpoll. simpl.
    destruct (IH s' HI' ltac:(lia)) as (Hall & Hnd & Hin & Hlen & HIa & Hza).
    assert (Hback : forall k, contains_in s' k = true ->
              k <> arr_get (heap s) 0 /\ contains_in s k = true /\
              values_get s' k = values_get s k).
    { intros k Hk. assert (k <> arr_get (heap s) 0) as Hne by congruence.
      split; [done|]. split; [now rewrite <- Hkeys|].
      rewrite (values_get_insert _ k _ s s' Hval). now rewrite decide_False. }
    split; [|split; [|split; [|split; [|done]]]].
    + constructor; [split; [done|]; simpl; now rewrite <- Hv|].
      eapply Forall_impl; [exact Hall|]. intros [k r] [Hk Hr]. simpl in *.
      destruct (Hback k Hk) as (_ & Hks & Hvs). split; [done|]. now rewrite <- Hvs.
    + constructor; [|done]. intros Hel.
      apply list_elem_of_fmap in Hel as ([k r] & Heq & Hel). simpl in Heq. subst k.
      rewrite Forall_forall in Hall. destruct (Hall _ Hel) as [Hk _]. simpl in Hk.
      congruence.
    + intros key Hc. destruct (decide (key = arr_get (heap s) 0)) as [->|Hne].
      * apply list_elem_of_here.
      * apply list_elem_of_further, Hin. now rewrite Hkeys.
    + now rewrite Hlen.
Qed.

(** *** clear *)

Lemma filter_index_lookup {K V} `{Countable K} (index : K -> bool) (m : gmap K V) k :
  filter (fun kv => index kv.1 = false) m !! k = if index k then None else m !! k.
Proof.
  destruct (index k) eqn:Hk.
  - apply map_lookup_filter_None_2. right. intros x _. simpl. congruence.
  - destruct (m !! k) as [x|] eqn:Hm.
    + now apply map_lookup_filter_Some_2.
    + apply map_lookup_filter_None_2. now left.
Qed.

Lemma contains_in_clear s key :
  contains_in (snd (clear s)) key =
    if key_is_index key then false else contains_in s key.
Proof.
  unfold contains_in. simpl. rewrite (filter_index_lookup key_is_index).
  now destruct (key_is_index key).
Qed.

Lemma values_get_clear s key :
  values_get (snd (clear s)) key =
    if key_is_index key then Undefined else values_get s key.
Proof.
  unfold values_get. simpl. rewrite (filter_index_lookup key_is_index).
  now destruct (key_is_index key).
Qed.

Lemma clear_wf s :
  Inv s -> sz s <= 2 ^ 32 - 1 ->
  (forall key, contains_in s key = true -> key_is_index key = true) ->
  Inv (snd (clear s)).
Proof.
  intros (Hok & Hidx & _) Hmax Hkeys. split; [|split].
  - destruct Hok as [Hd Hsz Hlen Hslots Hout Hund Hcmp].
    constructor; simpl; try done; try lia.
    + intros p _. rewrite (filter_index_lookup is_array_index).
      destruct (is_array_index p) eqn:Hp; [done|]. apply Hout.
      unfold is_array_index in Hp. lia.
    + rewrite (filter_index_lookup key_is_index). simpl. exact Hund.
  - intros k p _ Hp Hm1. exfalso.
    assert (contains_in (snd (clear s)) k = true) as Hc.
    { apply contains_in_true. now exists p. }
    rewrite contains_in_clear in Hc. destruct (key_is_index k) eqn:Hk; [done|].
    rewrite (Hkeys k Hc) in Hk. discriminate.
  - intros k p [=].
Qed.

Lemma run_calls_length (cs : list (call T)) s rs s' :
  run_calls cs s = (Returned rs, s') -> length rs = length cs.
Proof.
  revert s rs s'. induction cs as [|c cs IH]; intros s rs s' Hrun; simpl in Hrun.
  - unfold ret in Hrun. now injection Hrun as <- _.
  - unfold bind, ret in Hrun.
    destruct (run_call c s) as [[r| |] s1]; try discriminate.
    destruct (run_calls cs s1) as [[rs1| |] s2] eqn:Hcs; try discriminate.
    injection Hrun as <- _. simpl. f_equal. now apply (IH s1 rs1 s2).
Qed.

(** ** Further properties of the class *)

(** X1. From a well-formed heap every sequence of [add], [updateKey],
    [decreaseKey], [increaseKey], [deleteKey] and [poll] calls returns: no
    call throws and no loop fails to end.  There is one result per call,
    and afterwards the heap is well formed, with [pm[heap[p]] == p] at every
    position. *)
Theorem calls_return_well_formed (cs : list (call T)) s :
  Inv s ->
  exists rs s', run_calls cs s = (Returned rs, s') /\
    length rs = length cs /\ Inv s' /\ index_invariant s'.
Proof.
  intros HI. destruct (run_calls_inv cs s HI) as (rs & s' & Hrun & HI').
  exists rs, s'. split; [done|]. split; [now apply (run_calls_length cs s rs s')|].
  split; [done|now apply Inv_index_invariant].
Qed.

(** X2. In a well-formed heap [size()] is the number of keys for which
    [contains] answers true, and the positions [0 .. size - 1] hold exactly
    these keys, each once. *)
Theorem size_counts_contained_keys s :
  Inv s ->
  Z.of_nat (stdpp.base.size (contained_keys s)) = sz s /\
  (forall key, contains_in s key = true <->
     key ∈ (fun p => arr_get (heap s) p) <$> seqZ 0 (sz s)) /\
  NoDup ((fun p => arr_get (heap s) p) <$> seqZ 0 (sz s)).
Proof.
  intros HI. split; [now apply size_contained_keys|].
  destruct (contained_keys_positions s HI) as [Heq Hnd]. split; [|done].
  intros key. rewrite <- elem_of_contained_keys, Heq. apply elem_of_list_to_set.
Qed.

(** X3. The constructor raises a degree below 2 to 2 and keeps any other;
    the heap it builds has size 0, contains no key, and is well formed
    whenever its comparator never ranks [undefined] as the smaller value. *)
Theorem constructed_heap_is_empty degree (cf : option (jsval T -> jsval T -> Z)) :
  d (create degree cf) = Z.max 2 degree /\ 2 <= d (create degree cf) /\
  sz (create degree cf) = 0 /\
  (forall key, contains_in (create degree cf) key = false) /\
  isEmpty (create degree cf) = (Returned true, create degree cf) /\
  ((forall x, 0 <= compare (create degree cf) Undefined x) ->
   Inv (create degree cf)).
Proof.
  split; [done|]. split; [simpl; lia|]. split; [done|]. split.
  - intros key. unfold contains_in. simpl. now rewrite lookup_empty.
  - split; [done|]. apply create_wf.
Qed.

(** X4. [add] of a numeric key that is not contained returns true, makes the
    size one larger and the key contained with the given value; what
    [contains] and [valueOf] answer for every other key is unchanged. *)
Theorem add_records_key n (v : T) s :
  Inv s -> contains_in s (KNum n) = false ->
  exists s', add (KNum n) v s = (Returned true, s') /\ Inv s' /\
    sz s' = sz s + 1 /\
    contains_in s' (KNum n) = true /\
    valueOf (KNum n) s' = (Returned (Val v), s') /\
    (forall key, key <> KNum n ->
       contains_in s' key = contains_in s key /\
       fst (valueOf key s') = fst (valueOf key s)).
Proof.
  intros HI Hc.
  destruct (add_fresh n v s HI Hc) as (s' & Hadd & HI' & Hsz & Hval & Hin & Hkeys).
  exists s'. split; [done|]. split; [done|]. split; [done|]. split; [done|]. split.
  - rewrite valueOf_contained by done.
    rewrite (values_get_insert _ _ _ s s' Hval). now rewrite decide_True.
  - intros key Hne. split; [now apply Hkeys|].
    unfold valueOf, contains. rewrite !bind_gets, (Hkeys key Hne).
    destruct (contains_in s key); simpl; [|done]. unfold gets. simpl.
    rewrite (values_get_insert _ _ _ s s' Hval). now rewrite decide_False.
Qed.

(** X5. For a contained key whose stored value is truthy, [updateKey],
    [decreaseKey] and [increaseKey] all return true and leave the same state:
    the size and the contained keys are as before, [valueOf] of the key gives
    the new value, whichever way it compares with the old one, and the
    values of the other keys are unchanged. *)
Theorem update_methods_store_value key (v : T) s :
  Inv s -> contains_in s key = true -> falsy (values_get s key) = false ->
  exists s',
    updateKey key v s = (Returned true, s') /\
    decreaseKey key v s = (Returned true, s') /\
    increaseKey key v s = (Returned true, s') /\
    Inv s' /\ sz s' = sz s /\
    (forall k, contains_in s' k = contains_in s k) /\
    valueOf key s' = (Returned (Val v), s') /\
    (forall k, k <> key -> values_get s' k = values_get s k).
Proof.
  intros HI Hc Hf.
  destruct (updateKey_contained key v s HI Hc Hf) as (s' & Hup & HI' & Hsz & Hval & Hkeys).
  exists s'. rewrite decreaseKey_updateKey, increaseKey_updateKey.
  split; [done|]. split; [done|]. split; [done|]. split; [done|]. split; [done|].
  split; [exact Hkeys|]. split.
  - rewrite valueOf_contained by (now rewrite Hkeys).
    rewrite (values_get_insert _ _ _ s s' Hval). now rewrite decide_True.
  - intros k Hne. rewrite (values_get_insert _ _ _ s s' Hval). now rewrite decide_False.
Qed.

(** X6. For a contained key whose stored value is falsy (the number 0, for
    one), [updateKey], [decreaseKey] and [increaseKey] return false and
    change nothing. *)
Theorem update_methods_reject_falsy key (v : T) s :
  contains_in s key = true -> falsy (values_get s key) = true ->
  updateKey key v s = (Returned false, s) /\
  decreaseKey key v s = (Returned false, s) /\
  increaseKey key v s = (Returned false, s).
Proof.
  intros Hc Hf. rewrite decreaseKey_updateKey, increaseKey_updateKey.
  now rewrite updateKey_falsy by done.
Qed.

(** X7. [deleteKey] of a contained key returns the value [valueOf] gave for
    it; afterwards the size is one smaller, the key is not contained and
    [valueOf] gives null for it, and every other key is contained as before
    with the value it had. *)
Theorem deleteKey_removes_key key s :
  Inv s -> contains_in s key = true ->
  exists v s',
    valueOf key s = (Returned (Val v), s) /\
    deleteKey key s = (Returned (Val v), s') /\
    Inv s' /\ sz s' = sz s - 1 /\
    contains_in s' key = false /\
    valueOf key s' = (Returned Null, s') /\
    (forall k, k <> key ->
       contains_in s' k = contains_in s k /\ values_get s' k = values_get s k).
Proof.
  intros HI Hc.
  destruct (deleteKey_contained_values key s HI Hc)
    as (v & s' & Hdel & HI' & Hv & Hsz & Hval & Hgone & Hkeys).
  exists v, s'. split; [now rewrite valueOf_contained, Hv|].
  split; [done|]. split; [done|]. split; [done|]. split; [done|].
  split; [now apply valueOf_absent|].
  intros k Hne. split; [now apply Hkeys|].
  rewrite (values_get_insert _ _ _ s s' Hval). now rewrite decide_False.
Qed.

(** X8. A key that was deleted can be added again: after [deleteKey] of a
    contained numeric key, [add] of the same key returns true, the size is
    what it was before the deletion and [valueOf] gives the new value. *)
Theorem deleted_key_can_be_added_again n (v : T) s :
  Inv s -> contains_in s (KNum n) = true ->
  exists v0 s1 s2,
    deleteKey (KNum n) s = (Returned (Val v0), s1) /\
    add (KNum n) v s1 = (Returned true, s2) /\
    Inv s2 /\ sz s2 = sz s /\
    valueOf (KNum n) s2 = (Returned (Val v), s2).
Proof.
  intros HI Hc.
  destruct (deleteKey_contained_values (KNum n) s HI Hc)
    as (v0 & s1 & Hdel & HI1 & _ & Hsz1 & _ & Hgone & _).
  destruct (add_fresh n v s1 HI1 Hgone) as (s2 & Hadd & HI2 & Hsz2 & Hval & Hin & _).
  exists v0, s1, s2. split; [done|]. split; [done|]. split; [done|]. split; [lia|].
  rewrite valueOf_contained by done.
  rewrite (values_get_insert _ _ _ s1 s2 Hval). now rewrite decide_True.
Qed.


(** X10. On a well-formed heap [peek()] changes nothing and returns what
    the next [poll()] returns: null when the size is 0, and otherwise the
    payload stored for the key at position 0. *)
Theorem peek_is_next_poll s :
  Inv s ->
  peek s = (fst (poll s), s) /\
  (sz s = 0 -> peek s = (Returned Null, s)) /\
  (sz s <> 0 -> exists v,
     peek s = (Returned (Val v), s) /\ values_get s (arr_get (heap s) 0) = Val v).
Proof.
  intros HI. rewrite peek_run. destruct (Z.eqb_spec (sz s) 0) as [Hz|Hnz].
  - split; [|split; [done|done]]. rewrite poll_run. now rewrite Hz.
  - destruct (poll_nonempty s HI Hnz) as (v & s' & Hpoll & _ & Hv & _).
    rewrite Hpoll, Hv. split; [done|]. split; [done|]. intros _. now exists v.
Qed.

(** X11. Polling a well-formed heap [size()] times empties it and returns
    every contained key's value exactly once: the keys read at the root
    before the calls are the contained keys, each once, every call returns
    the value stored for its key, and the size is 0 afterwards. *)
Theorem polling_empties_heap s :
  Inv s ->
  length (polls (Z.to_nat (sz s)) s) = Z.to_nat (sz s) /\
  NoDup ((polls (Z.to_nat (sz s)) s).*1) /\
  (forall key, contains_in s key = true <-> key ∈ (polls (Z.to_nat (sz s)) s).*1) /\
  (forall key r, (key, r) ∈ polls (Z.to_nat (sz s)) s ->
     r = Returned (values_get s key)) /\
  Inv (after_polls (Z.to_nat (sz s)) s) /\
  sz (after_polls (Z.to_nat (sz s)) s) = 0.
Proof.
  intros HI. pose proof (ok_size s (proj1 HI)) as Hsz.
  destruct (polls_drain (Z.to_nat (sz s)) s HI ltac:(lia))
    as (Hall & Hnd & Hin & Hlen & HIa & Hza).
  rewrite Forall_forall in Hall.
  split; [done|]. split; [done|]. split; [|split; [|done]].
  - intros key. split; [apply Hin|]. intros Hel.
    apply list_elem_of_fmap in Hel as ([k r] & -> & Hel). now apply (Hall _ Hel).
  - intros key r Hel. now apply (Hall _ Hel).
Qed.

(** X12. [add] keeps the heap order: from a well-formed heap in which no
    parent compares greater than a child, under a comparator that orders
    the payloads, any sequence of [add] calls returns and leaves the heap
    invariant, index and order, in force. *)
Theorem adds_keep_heap_invariant (kvs : list (Z * T)) s :
  Inv s -> comparator_ok (compare s) -> order_invariant s ->
  exists rs s', run_calls (adds kvs) s = (Returned rs, s') /\
    Inv s' /\ heap_invariant s'.
Proof.
  intros HI Hcmp Hord. pose proof (ok_degree s (proj1 HI)) as Hd.
  destruct (run_adds_order kvs s HI Hcmp) as (rs & s' & Hrun & HI' & Hord' & _).
  { now apply order_invariant_parent_order. }
  exists rs, s'. split; [done|]. split; [done|]. split.
  - now apply Inv_index_invariant.
  - apply order_invariant_parent_order; [apply HI'|done].
Qed.

(** X13. In a well-formed heap that satisfies the order invariant, under a
    comparator that orders the payloads, [peek()] and [poll()] return a
    minimum: the returned value compares no greater than the value of any
    contained key. *)
Theorem peek_is_minimum key s :
  Inv s -> comparator_ok (compare s) -> order_invariant s ->
  contains_in s key = true ->
  exists m x,
    peek s = (Returned (Val m), s) /\
    fst (poll s) = Returned (Val m) /\
    values_get s key = Val x /\
    compare s (Val m) (Val x) <= 0.
Proof.
  intros HI Hcmp Hord Hc. pose proof (proj1 HI) as Hok.
  destruct (contained_slot s key HI Hc) as (n & x & -> & Hp & _ & Hg & Hv).
  assert (sz s <> 0) as Hnz by lia.
  destruct (poll_nonempty s HI Hnz) as (m & s' & Hpoll & _ & Hm & _).
  exists m, x. rewrite peek_run, Hpoll, Hm.
  destruct (Z.eqb_spec (sz s) 0) as [|_]; [done|].
  split; [done|]. split; [done|].
  split; [unfold values_get; now rewrite Hv|].
  assert (value_at s (pm_get s (KNum n)) = Val x) as Hx.
  { unfold value_at, values_get. now rewrite Hg, Hv. }
  rewrite <- Hm, <- Hx.
  apply (root_minimum s Hok Hcmp); [|done].
  apply order_invariant_parent_order; [apply Hok|done].
Qed.

(** X14. [clear()] on a well-formed heap whose contained keys are all array
    indices (integers from 0 to [2^32 - 2]) and whose size is within the
    length of an array gives a well-formed empty heap: the size is 0, no key
    is contained, and the degree and comparator are kept. *)
Theorem clear_resets s :
  Inv s -> sz s <= 2 ^ 32 - 1 ->
  (forall key, contains_in s key = true -> key_is_index key = true) ->
  exists s', clear s = (Returned tt, s') /\ Inv s' /\ sz s' = 0 /\
    (forall key, contains_in s' key = false) /\
    d s' = d s /\ compare s' = compare s.
Proof.
  intros HI Hmax Hkeys. exists (snd (clear s)). split; [done|].
  split; [now apply clear_wf|]. split; [done|]. split; [|done].
  intros key. rewrite contains_in_clear.
  destruct (key_is_index key) eqn:Hk; [done|].
  destruct (contains_in s key) eqn:Hc; [|done]. rewrite (Hkeys key Hc) in Hk. discriminate.
Qed.

(** X15. [clear()] forgets only array indices: on any state, a key that is
    not an array index (a negative number, for one) is contained after
    [clear()] exactly if it was before, with the same stored value, although
    the size is 0; every key that is an array index is no longer
    contained. *)
Theorem clear_keeps_other_properties key s :
  sz (snd (clear s)) = 0 /\
  (key_is_index key = true -> contains_in (snd (clear s)) key = false) /\
  (key_is_index key = false ->
     contains_in (snd (clear s)) key = contains_in s key /\
     values_get (snd (clear s)) key = values_get s key /\
     fst (valueOf key (snd (clear s))) = fst (valueOf key s)).
Proof.
  split; [done|]. split.
  - intros Hk. rewrite contains_in_clear. now rewrite Hk.
  - intros Hk.
    assert (contains_in (snd (clear s)) key = contains_in s key) as Hc.
    { rewrite contains_in_clear. now rewrite Hk. }
    assert (values_get (snd (clear s)) key = values_get s key) as Hv.
    { rewrite values_get_clear. now rewrite Hk. }
    split; [done|]. split; [done|].
    destruct (contains_in s key) eqn:Hcs.
    + rewrite (valueOf_contained key (snd (clear s))) by done.
      rewrite (valueOf_contained key s) by done. cbn [fst]. now rewrite Hv.
    + rewrite (valueOf_absent key (snd (clear s))) by done.
      now rewrite (valueOf_absent key s) by done.
Qed.

(** X16. For a degree of at least 1, [getParentPosition] gives [p] for a
    position [c] exactly when [c] is one of the [d] positions
    [p*d + 1 .. p*d + d]. *)
Theorem parent_of_child s p c :
  1 <= d s ->
  (getParentPosition s c = p <-> p * d s + 1 <= c <= p * d s + d s).
Proof.
  intros Hd. split.
  - intros <-. now apply getParentPosition_range.
  - intros Hc. replace c with (p * d s + (c - p * d s)) by lia.
    apply getParentPosition_child. lia.
Qed.

(** X17. On a well-formed heap [sink] from any position from 0 on and
    [swim] from any position from 0 up to the size return, and only move
    keys: the heap stays well formed, and the size, the stored values and
    the contained keys are unchanged. *)
Theorem sink_swim_only_move_keys k s :
  Inv s -> 0 <= k ->
  (exists s', sink k s = (Returned tt, s') /\ Inv s' /\
     sz s' = sz s /\ values s' = values s /\
     (forall key, contains_in s' key = contains_in s key)) /\
  (k <= sz s ->
   exists s', swim k s = (Returned tt, s') /\ Inv s' /\
     sz s' = sz s /\ values s' = values s /\
     (forall key, contains_in s' key = contains_in s key)).
Proof.
  intros HI Hk. split.
  - destruct (sink_restored None s k HI) as (s' & Hrun & Hwf & (_ & Hsz & Hval & _) & Hkeys);
      [lia|].
    exists s'. split; [done|]. split; [done|]. split; [done|]. split; [done|]. exact Hkeys.
  - intros Hle.
    destruct (swim_restored None s k HI ltac:(lia))
      as (s' & Hrun & Hwf & (_ & Hsz & Hval & _) & Hkeys).
    exists s'. split; [done|]. split; [done|]. split; [done|]. split; [done|]. exact Hkeys.
Qed.

(** X18. [poll()] on a well-formed heap that is not empty returns the value
    stored for the key at position 0 and removes exactly that key: the size
    is one smaller, that key is no longer contained, and every other key is
    contained as before with the value it had. *)
Theorem poll_removes_root s :
  Inv s -> sz s <> 0 ->
  exists v s', poll s = (Returned (Val v), s') /\ Inv s' /\
    values_get s (arr_get (heap s) 0) = Val v /\
    sz s' = sz s - 1 /\
    contains_in s (arr_get (heap s) 0) = true /\
    contains_in s' (arr_get (heap s) 0) = false /\
    (forall k, k <> arr_get (heap s) 0 ->
       contains_in s' k = contains_in s k /\ values_get s' k = values_get s k).
Proof.
  intros HI Hnz.
  destruct (poll_nonempty s HI Hnz)
    as (v & s' & Hpoll & HI' & Hv & Hsz & Hval & Hroot & Hgone & Hkeys).
  exists v, s'. split; [done|]. split; [done|]. split; [exact Hv|]. split; [done|].
  split; [done|]. split; [done|].
  intros k Hne. split; [now apply Hkeys|].
  rewrite (values_get_insert _ _ _ s s' Hval). now rewrite decide_False.
Qed.

(** X19. On a well-formed heap [valueOf] changes nothing and returns null
    exactly for the keys that are not contained; for a contained key it
    returns the payload stored for it. *)
Theorem valueOf_null_iff_absent key s :
  Inv s ->
  snd (valueOf key s) = s /\
  (contains_in s key = false <-> fst (valueOf key s) = Returned Null) /\
  (contains_in s key = true <->
     exists v, valueOf key s = (Returned (Val v), s) /\ values_get s key = Val v).
Proof.
  intros HI. destruct (contains_in s key) eqn:Hc.
  - destruct (contained_value s key HI Hc) as [v Hv].
    rewrite valueOf_contained by done. rewrite Hv. simpl.
    split; [done|]. split; [split; discriminate|]. split; [|done].
    intros _. now exists v.
  - rewrite valueOf_absent by done. simpl.
    split; [done|]. split; [done|]. split; [discriminate|].
    now intros (v & [=] & _).
Qed.

(** Every contained key has a property that the keys at all positions
    have. *)
Lemma contained_keys_Forall (P : jskey -> Prop) s :
  Inv s ->
  Forall P ((fun p => arr_get (heap s) p) <$> seqZ 0 (sz s)) ->
  forall key, contains_in s key = true -> P key.
Proof.
  intros HI Hall key Hc. rewrite Forall_forall in Hall. apply Hall.
  destruct (contained_keys_positions s HI) as [Heq _].
  apply elem_of_contained_keys in Hc. rewrite Heq in Hc.
  now apply elem_of_list_to_set in Hc.
Qed.

Lemma after_adds_ordered kvs s :
  Inv s -> comparator_ok (compare s) -> order_invariant s ->
  Inv (after (adds kvs) s) /\ comparator_ok (compare (after (adds kvs) s)) /\
  order_invariant (after (adds kvs) s).
Proof.
  intros HI Hcmp Hord. pose proof (ok_degree s (proj1 HI)) as Hd.
  destruct (run_adds_order kvs s HI Hcmp) as (rs & s' & Hrun & HI' & Hord' & Hcs).
  { now apply order_invariant_parent_order. }
  unfold after. rewrite Hrun. simpl. split; [done|]. split; [now rewrite Hcs|].
  apply order_invariant_parent_order; [apply HI'|done].
Qed.

End More.

(** ** Witnesses on heaps of numbers *)

Lemma number_compare_ok : comparator_ok number_compare.
Proof.
  constructor; intros; simpl in *;
    repeat match goal with
    | H : context [?a <? ?b] |- _ => destruct (Z.ltb_spec a b)
    | |- context [?a <? ?b] => destruct (Z.ltb_spec a b)
    end; lia.
Qed.

Lemma fresh_ordered degree : order_invariant (fresh degree).
Proof. intros p c Hp. simpl in Hp. lia. Qed.

Lemma calls_return_well_formed_witness :
  Inv (fresh 2) /\
  exists rs s', run_calls order_calls (fresh 2) = (Returned rs, s') /\
    length rs = length order_calls /\ Inv s' /\ index_invariant s'.
Proof.
  split; [apply fresh_Inv|].
  apply (calls_return_well_formed order_calls (fresh 2) (fresh_Inv 2)).
Defined.

Lemma size_counts_contained_keys_witness :
  Inv (after [Add 0 5; Add 1 3; Add 2 8; DeleteKey 1] (fresh 2)) /\
  Z.of_nat (stdpp.base.size
              (contained_keys (after [Add 0 5; Add 1 3; Add 2 8; DeleteKey 1] (fresh 2)))) =
    sz (after [Add 0 5; Add 1 3; Add 2 8; DeleteKey 1] (fresh 2)).
Proof.
  split; [apply after_Inv, fresh_Inv|].
  apply (proj1 (size_counts_contained_keys _ (after_Inv _ _ (fresh_Inv 2)))).
Defined.

Lemma constructed_heap_is_empty_witness :
  (forall x, 0 <= compare (create (T:=Z) 0 None) Undefined x) /\
  Inv (create (T:=Z) 0 None) /\ d (create (T:=Z) 0 None) = 2.
Proof.
  assert (forall x, 0 <= compare (create (T:=Z) 0 None) Undefined x) as Hcmp.
  { intros x. simpl. lia. }
  split; [exact Hcmp|].
  destruct (constructed_heap_is_empty (T:=Z) 0 None) as (Hd & _ & _ & _ & _ & HI).
  split; [exact (HI Hcmp)|exact Hd].
Defined.

Lemma add_records_key_witness :
  Inv (after [Add 0 5] (fresh 2)) /\
  contains_in (after [Add 0 5] (fresh 2)) (KNum 1) = false /\
  exists s', add (KNum 1) 3 (after [Add 0 5] (fresh 2)) = (Returned true, s') /\
    sz s' = 2 /\ valueOf (KNum 1) s' = (Returned (Val 3), s').
Proof.
  split; [apply after_Inv, fresh_Inv|]. split; [reflexivity|].
  destruct (add_records_key 1 3 (after [Add 0 5] (fresh 2))
              (after_Inv _ _ (fresh_Inv 2)) eq_refl)
    as (s' & Hadd & _ & Hsz & _ & Hval & _).
  exists s'. split; [exact Hadd|]. split; [exact Hsz|exact Hval].
Defined.

Lemma update_methods_store_value_witness :
  Inv (after [Add 0 5; Add 1 3] (fresh 2)) /\
  contains_in (after [Add 0 5; Add 1 3] (fresh 2)) (KNum 1) = true /\
  falsy (values_get (after [Add 0 5; Add 1 3] (fresh 2)) (KNum 1)) = false /\
  exists s',
    decreaseKey (KNum 1) 9 (after [Add 0 5; Add 1 3] (fresh 2)) = (Returned true, s') /\
    valueOf (KNum 1) s' = (Returned (Val 9), s').
Proof.
  assert (falsy (values_get (after [Add 0 5; Add 1 3] (fresh 2)) (KNum 1)) = false) as Hf
    by reflexivity.
  split; [apply after_Inv, fresh_Inv|]. split; [reflexivity|]. split; [exact Hf|].
  destruct (update_methods_store_value (KNum 1) 9 (after [Add 0 5; Add 1 3] (fresh 2))
              (after_Inv _ _ (fresh_Inv 2)) eq_refl Hf)
    as (s' & _ & Hdec & _ & _ & _ & _ & Hval & _).
  exists s'. split; [exact Hdec|exact Hval].
Defined.

Lemma update_methods_reject_falsy_witness :
  contains_in (after [Add 0 0] (fresh 2)) (KNum 0) = true /\
  falsy (values_get (after [Add 0 0] (fresh 2)) (KNum 0)) = true /\
  increaseKey (KNum 0) 5 (after [Add 0 0] (fresh 2)) =
    (Returned false, after [Add 0 0] (fresh 2)).
Proof.
  assert (falsy (values_get (after [Add 0 0] (fresh 2)) (KNum 0)) = true) as Hf
    by reflexivity.
  split; [reflexivity|]. split; [exact Hf|].
  apply (update_methods_reject_falsy (KNum 0) 5 (after [Add 0 0] (fresh 2)) eq_refl Hf).
Defined.

Lemma deleteKey_removes_key_witness :
  Inv (after [Add 0 5; Add 1 3] (fresh 2)) /\
  contains_in (after [Add 0 5; Add 1 3] (fresh 2)) (KNum 0) = true /\
  exists v s',
    deleteKey (KNum 0) (after [Add 0 5; Add 1 3] (fresh 2)) = (Returned (Val v), s') /\
    contains_in s' (KNum 0) = false /\ sz s' = 1.
Proof.
  split; [apply after_Inv, fresh_Inv|]. split; [reflexivity|].
  destruct (deleteKey_removes_key (KNum 0) (after [Add 0 5; Add 1 3] (fresh 2))
              (after_Inv _ _ (fresh_Inv 2)) eq_refl)
    as (v & s' & _ & Hdel & _ & Hsz & Hgone & _).
  exists v, s'. split; [exact Hdel|]. split; [exact Hgone|exact Hsz].
Defined.

Lemma deleted_key_can_be_added_again_witness :
  Inv (after [Add 0 5; Add 1 3] (fresh 2)) /\
  contains_in (after [Add 0 5; Add 1 3] (fresh 2)) (KNum 0) = true /\
  exists v0 s1 s2,
    deleteKey (KNum 0) (after [Add 0 5; Add 1 3] (fresh 2)) = (Returned (Val v0), s1) /\
    add (KNum 0) 7 s1 = (Returned true, s2) /\
    valueOf (KNum 0) s2 = (Returned (Val 7), s2).
Proof.
  split; [apply after_Inv, fresh_Inv|]. split; [reflexivity|].
  destruct (deleted_key_can_be_added_again 0 7 (after [Add 0 5; Add 1 3] (fresh 2))
              (after_Inv _ _ (fresh_Inv 2)) eq_refl)
    as (v0 & s1 & s2 & Hdel & Hadd & _ & _ & Hval).
  exists v0, s1, s2. split; [exact Hdel|]. split; [exact Hadd|exact Hval].
Defined.


Lemma peek_is_next_poll_witness :
  Inv (after [Add 0 5; Add 1 3] (fresh 2)) /\
  peek (after [Add 0 5; Add 1 3] (fresh 2)) =
    (fst (poll (after [Add 0 5; Add 1 3] (fresh 2))), after [Add 0 5; Add 1 3] (fresh 2)).
Proof.
  split; [apply after_Inv, fresh_Inv|].
  apply (proj1 (peek_is_next_poll _ (after_Inv _ _ (fresh_Inv 2)))).
Defined.

Lemma polling_empties_heap_witness :
  Inv (after extraction_calls (fresh 3)) /\
  length (polls (Z.to_nat (sz (after extraction_calls (fresh 3))))
            (after extraction_calls (fresh 3))) =
    Z.to_nat (sz (after extraction_calls (fresh 3))).
Proof.
  split; [apply after_Inv, fresh_Inv|].
  apply (proj1 (polling_empties_heap _ (after_Inv _ _ (fresh_Inv 3)))).
Defined.

Lemma adds_keep_heap_invariant_witness :
  Inv (fresh 3) /\ comparator_ok (compare (fresh 3)) /\ order_invariant (fresh 3) /\
  exists rs s', run_calls (adds [(0, 5); (1, 3); (2, 8); (3, 1); (4, 9)]) (fresh 3) =
                  (Returned rs, s') /\
    Inv s' /\ heap_invariant s'.
Proof.
  split; [apply fresh_Inv|]. split; [apply number_compare_ok|].
  split; [apply fresh_ordered|].
  apply (adds_keep_heap_invariant [(0, 5); (1, 3); (2, 8); (3, 1); (4, 9)] (fresh 3)
           (fresh_Inv 3) number_compare_ok (fresh_ordered 3)).
Defined.

Lemma peek_is_minimum_witness :
  Inv (after (adds [(0, 5); (1, 3); (2, 8)]) (fresh 2)) /\
  comparator_ok (compare (after (adds [(0, 5); (1, 3); (2, 8)]) (fresh 2))) /\
  order_invariant (after (adds [(0, 5); (1, 3); (2, 8)]) (fresh 2)) /\
  contains_in (after (adds [(0, 5); (1, 3); (2, 8)]) (fresh 2)) (KNum 2) = true /\
  exists m x,
    peek (after (adds [(0, 5); (1, 3); (2, 8)]) (fresh 2)) =
      (Returned (Val m), after (adds [(0, 5); (1, 3); (2, 8)]) (fresh 2)) /\
    values_get (after (adds [(0, 5); (1, 3); (2, 8)]) (fresh 2)) (KNum 2) = Val x /\
    compare (after (adds [(0, 5); (1, 3); (2, 8)]) (fresh 2)) (Val m) (Val x) <= 0.
Proof.
  destruct (after_adds_ordered [(0, 5); (1, 3); (2, 8)] (fresh 2)
              (fresh_Inv 2) number_compare_ok (fresh_ordered 2)) as (HI & Hcmp & Hord).
  split; [exact HI|]. split; [exact Hcmp|]. split; [exact Hord|]. split; [reflexivity|].
  destruct (peek_is_minimum (KNum 2) _ HI Hcmp Hord eq_refl)
    as (m & x & Hpeek & _ & Hx & Hle).
  exists m, x. split; [exact Hpeek|]. split; [exact Hx|exact Hle].
Defined.

Lemma clear_resets_witness :
  Inv (after [Add 0 5; Add 1 3] (fresh 2)) /\
  sz (after [Add 0 5; Add 1 3] (fresh 2)) <= 2 ^ 32 - 1 /\
  (forall key, contains_in (after [Add 0 5; Add 1 3] (fresh 2)) key = true ->
     key_is_index key = true) /\
  exists s', clear (after [Add 0 5; Add 1 3] (fresh 2)) = (Returned tt, s') /\
    sz s' = 0 /\ (forall key, contains_in s' key = false).
Proof.
  assert (forall key, contains_in (after [Add 0 5; Add 1 3] (fresh 2)) key = true ->
            key_is_index key = true) as Hkeys.
  { apply contained_keys_Forall; [apply after_Inv, fresh_Inv|].
    replace ((fun p => arr_get (heap (after [Add 0 5; Add 1 3] (fresh 2))) p) <$>
               seqZ 0 (sz (after [Add 0 5; Add 1 3] (fresh 2))))
      with [KNum 1; KNum 0] by (vm_compute; reflexivity).
    repeat constructor. }
  assert (sz (after [Add 0 5; Add 1 3] (fresh 2)) <= 2 ^ 32 - 1) as Hmax.
  { apply Z.leb_le. reflexivity. }
  split; [apply after_Inv, fresh_Inv|]. split; [exact Hmax|]. split; [exact Hkeys|].
  destruct (clear_resets _ (after_Inv _ _ (fresh_Inv 2)) Hmax Hkeys)
    as (s' & Hclear & _ & Hsz & Hnone & _).
  exists s'. split; [exact Hclear|]. split; [exact Hsz|exact Hnone].
Defined.

Lemma clear_keeps_other_properties_witness :
  key_is_index (KNum (-1)) = false /\
  contains_in (snd (clear (after [Add (-1) 5] (fresh 2)))) (KNum (-1)) =
    contains_in (after [Add (-1) 5] (fresh 2)) (KNum (-1)).
Proof.
  split; [reflexivity|].
  apply (proj1 (proj2 (proj2 (clear_keeps_other_properties (KNum (-1))
                                 (after [Add (-1) 5] (fresh 2)))) eq_refl)).
Defined.

Lemma parent_of_child_witness :
  1 <= d (fresh 3) /\
  (getParentPosition (fresh 3) 5 = 1 <-> 1 * d (fresh 3) + 1 <= 5 <= 1 * d (fresh 3) + d (fresh 3)).
Proof.
  assert (1 <= d (fresh 3)) as Hd by (simpl; lia).
  split; [exact Hd|]. apply (parent_of_child (fresh 3) 1 5 Hd).
Defined.

Lemma sink_swim_only_move_keys_witness :
  Inv (after [Add 0 5; Add 1 3] (fresh 2)) /\
  0 <= 5 /\
  exists s', sink 5 (after [Add 0 5; Add 1 3] (fresh 2)) = (Returned tt, s') /\
    values s' = values (after [Add 0 5; Add 1 3] (fresh 2)).
Proof.
  assert (0 <= 5) as Hk by (apply Z.leb_le; reflexivity).
  split; [apply after_Inv, fresh_Inv|]. split; [exact Hk|].
  destruct (proj1 (sink_swim_only_move_keys 5 (after [Add 0 5; Add 1 3] (fresh 2))
                    (after_Inv _ _ (fresh_Inv 2)) Hk))
    as (s' & Hsink & _ & _ & Hval & _).
  exists s'. split; [exact Hsink|exact Hval].
Defined.

Lemma poll_removes_root_witness :
  Inv (after [Add 0 5; Add 1 3] (fresh 2)) /\
  sz (after [Add 0 5; Add 1 3] (fresh 2)) <> 0 /\
  exists v s', poll (after [Add 0 5; Add 1 3] (fresh 2)) = (Returned (Val v), s') /\
    sz s' = 1 /\ contains_in s' (KNum 1) = false.
Proof.
  assert (sz (after [Add 0 5; Add 1 3] (fresh 2)) <> 0) as Hnz by discriminate.
  split; [apply after_Inv, fresh_Inv|]. split; [exact Hnz|].
  destruct (poll_removes_root _ (after_Inv _ _ (fresh_Inv 2)) Hnz)
    as (v & s' & Hpoll & _ & _ & Hsz & _ & Hgone & _).
  exists v, s'. split; [exact Hpoll|]. split; [exact Hsz|exact Hgone].
Defined.

Lemma valueOf_null_iff_absent_witness :
  Inv (after [Add 0 5; Add 1 3] (fresh 2)) /\
  (contains_in (after [Add 0 5; Add 1 3] (fresh 2)) (KNum 7) = false <->
   fst (valueOf (KNum 7) (after [Add 0 5; Add 1 3] (fresh 2))) = Returned Null).
Proof.
  split; [apply after_Inv, fresh_Inv|].
  apply (proj1 (proj2 (valueOf_null_iff_absent (KNum 7) _ (after_Inv _ _ (fresh_Inv 2))))).
Defined.

End MinIndexedDHeap.
